(** * simple-blockchain: the replicated chain, verified against its Go source

    A shallow embedding of [pkg/blockchain] (blocks, the chain, the
    transaction pool), [pkg/consensus] (proof of work, proof of stake),
    [pkg/network/p2p.go] (gossip, peers, discovery, reconciliation), the
    write and lookup endpoints of [pkg/api] and the block store of
    [pkg/storage/leveldb.go].

    Conventions.
    - Go's [int] is the 64-bit two's complement integer: a [Z] kept in range
      by [wrap_int].
    - Go strings are byte strings: Rocq's [string].
    - [time.Now().String()] is an input of the environment: the functions that
      read the clock take the rendered instant as an argument [t].
    - The nonce search of [GenerateBlock] has no upper bound in the source; it
      is run here with a number of iterations [fuel], and [OutOfFuel] stands
      for a search still running.
    - A Go run-time panic ([strings.Repeat] with a negative count, an
      allocation above the run time's limit [max_alloc], index out of
      range) is the outcome [Panic]. Below that limit the machine is taken
      to have the memory asked for.
    - The mutexes are not modelled: every operation below is one critical
      section of the source. *)

From Stdlib Require Import ZArith List String Ascii Lia Bool.
From Stdlib Require Import DecimalString HexadecimalString.
From Stdlib Require DecimalPos DecimalZ.
From stdpp Require Import base option gmap strings list.

Local Open Scope string_scope.
Local Open Scope list_scope.
Local Open Scope Z_scope.

(** ** crypto/sha256 and encoding/hex

    The digest of the Go standard library, written from FIPS 180-4.  Words
    are 32-bit, kept as [Z] in [[0, 2^32)]. *)
Module SHA256.

Definition w32 (x : Z) : Z := x mod 2 ^ 32.
Definition add32 (x y : Z) : Z := w32 (x + y).
Definition rotr (n x : Z) : Z :=
  Z.lor (Z.shiftr x n) (w32 (Z.shiftl x (32 - n))).
Definition not32 (x : Z) : Z := Z.lxor x (2 ^ 32 - 1).

Definition Ch (x y z : Z) : Z := Z.lxor (Z.land x y) (Z.land (not32 x) z).
Definition Maj (x y z : Z) : Z :=
  Z.lxor (Z.lxor (Z.land x y) (Z.land x z)) (Z.land y z).
Definition bsig0 (x : Z) : Z := Z.lxor (Z.lxor (rotr 2 x) (rotr 13 x)) (rotr 22 x).
Definition bsig1 (x : Z) : Z := Z.lxor (Z.lxor (rotr 6 x) (rotr 11 x)) (rotr 25 x).
Definition ssig0 (x : Z) : Z := Z.lxor (Z.lxor (rotr 7 x) (rotr 18 x)) (Z.shiftr x 3).
Definition ssig1 (x : Z) : Z := Z.lxor (Z.lxor (rotr 17 x) (rotr 19 x)) (Z.shiftr x 10).

(** The round constants are the first 32 bits of the fractional parts of
    the cube roots of the first 64 primes, the initial state those of the
    square roots of the first 8; both tables are computed from that
    definition. *)
Definition is_prime (n : Z) : bool :=
  forallb (fun d => negb (n mod d =? 0) || (n <=? d))
          (map Z.of_nat (seq 2 18)).

Definition primes64 : list Z :=
  Eval vm_compute in
    filter (fun n => is_prime n) (map Z.of_nat (seq 2 310)).

(** Integer cube root by bisection: the largest [r] in [[lo, hi)] with
    [r^3 <= n]. *)
Fixpoint cbrt_bisect (steps : nat) (n lo hi : Z) : Z :=
  match steps with
  | O => lo
  | S steps' =>
      let mid := (lo + hi) / 2 in
      if mid * mid * mid <=? n
      then cbrt_bisect steps' n mid hi
      else cbrt_bisect steps' n lo mid
  end.

Definition frac_cbrt32 (p : Z) : Z := w32 (cbrt_bisect 40 (p * 2 ^ 96) 0 (2 ^ 35)).
Definition frac_sqrt32 (p : Z) : Z := w32 (Z.sqrt (p * 2 ^ 64)).

Definition K : list Z := Eval vm_compute in map frac_cbrt32 primes64.
Definition H0 : list Z := Eval vm_compute in map frac_sqrt32 (firstn 8 primes64).

(** Padding (5.1.1): a 1 bit, zeros up to 56 modulo 64 bytes, then the
    bit length as a 64-bit big-endian number. *)
Definition be_bytes (n : nat) (x : Z) : list Z :=
  map (fun i => (Z.shiftr x (8 * Z.of_nat (n - 1 - i))) mod 256) (seq 0 n).

Definition pad (msg : list Z) : list Z :=
  let len := Z.of_nat (length msg) in
  let zeros := Z.to_nat ((55 - len) mod 64) in
  msg ++ 128 :: repeat 0 zeros ++ be_bytes 8 (8 * len).

Fixpoint be_words (n : nat) (bs : list Z) : list Z :=
  match n, bs with
  | S n', b0 :: b1 :: b2 :: b3 :: rest =>
      (b0 * 2 ^ 24 + b1 * 2 ^ 16 + b2 * 2 ^ 8 + b3) :: be_words n' rest
  | _, _ => []
  end.

Fixpoint chunks (n : nat) (bs : list Z) : list (list Z) :=
  match n with
  | O => []
  | S n' =>
      match bs with
      | [] => []
      | _ => firstn 64 bs :: chunks n' (skipn 64 bs)
      end
  end.

(** Message schedule (6.2.2 step 1).  [rev_w] holds W_{t-1}, W_{t-2}, ...
    most recent first. *)
Fixpoint schedule (n : nat) (rev_w : list Z) : list Z :=
  match n with
  | O => rev_w
  | S n' =>
      let at_ k := nth k rev_w 0 in
      let wt := add32 (add32 (add32 (ssig1 (at_ 1%nat)) (at_ 6%nat))
                              (ssig0 (at_ 14%nat))) (at_ 15%nat) in
      schedule n' (wt :: rev_w)
  end.

Record regs := Regs { ra : Z; rb : Z; rc : Z; rd : Z; re : Z; rf : Z; rg : Z; rh : Z }.

Definition round (s : regs) (kw : Z * Z) : regs :=
  let '(k, w) := kw in
  let t1 := add32 (add32 (add32 (add32 (rh s) (bsig1 (re s)))
                                 (Ch (re s) (rf s) (rg s))) k) w in
  let t2 := add32 (bsig0 (ra s)) (Maj (ra s) (rb s) (rc s)) in
  Regs (add32 t1 t2) (ra s) (rb s) (rc s) (add32 (rd s) t1) (re s) (rf s) (rg s).

Definition compress (h : regs) (chunk : list Z) : regs :=
  let ws := rev (schedule 48 (rev (be_words 16 chunk))) in
  let s := fold_left round (combine K ws) h in
  Regs (add32 (ra h) (ra s)) (add32 (rb h) (rb s)) (add32 (rc h) (rc s))
       (add32 (rd h) (rd s)) (add32 (re h) (re s)) (add32 (rf h) (rf s))
       (add32 (rg h) (rg s)) (add32 (rh h) (rh s)).

Definition init : regs :=
  let at_ k := nth k H0 0 in
  Regs (at_ 0%nat) (at_ 1%nat) (at_ 2%nat) (at_ 3%nat)
       (at_ 4%nat) (at_ 5%nat) (at_ 6%nat) (at_ 7%nat).

Definition bytes_of_string (s : string) : list Z :=
  map (fun c => Z.of_N (N_of_ascii c)) (list_ascii_of_string s).

(** [h.Write([]byte(record)); h.Sum(nil)]: the 32 bytes of the digest. *)
Definition sum (s : string) : list Z :=
  let msg := pad (bytes_of_string s) in
  let h := fold_left compress (chunks (length msg) msg) init in
  flat_map (be_bytes 4) [ra h; rb h; rc h; rd h; re h; rf h; rg h; rh h].

(** [hex.EncodeToString]: two lowercase hexadecimal digits per byte. *)
Definition hexdigit (d : Z) : ascii :=
  nth (Z.to_nat d) (list_ascii_of_string "0123456789abcdef") "0"%char.

Definition EncodeToString (bs : list Z) : string :=
  string_of_list_ascii (flat_map (fun b => [hexdigit (b / 16); hexdigit (b mod 16)]) bs).

Definition hex_sum (s : string) : string := EncodeToString (sum s).

End SHA256.

(** ** The Go run time *)

(** What a call does: it returns, it panics, or (for the unbounded nonce
    search only) it is still running when the fuel is spent. *)
Inductive outcome (A : Type) : Type :=
| Ok (a : A)
| Panic
| OutOfFuel.
Arguments Ok {A} a.
Arguments Panic {A}.
Arguments OutOfFuel {A}.

Definition max_int : Z := 2 ^ 63 - 1.
Definition min_int : Z := - 2 ^ 63.

(** Two's complement wrap-around of a 64-bit [int]. *)
Definition wrap_int (z : Z) : Z := (z + 2 ^ 63) mod 2 ^ 64 - 2 ^ 63.

(** [strconv.Itoa]: decimal, a leading minus sign for negative numbers. *)
Definition Itoa (z : Z) : string :=
  DecimalString.NilZero.string_of_int (Z.to_int z).

(** [fmt.Sprintf("%x", i)] on an [int]: lowercase hexadecimal of the
    magnitude, a leading minus sign for negative numbers. *)
Definition hex_of_N (n : N) : string :=
  HexadecimalString.NilZero.string_of_uint (N.to_hex_uint n).

Definition Sprintf_x (i : Z) : string :=
  if i <? 0 then String "-" (hex_of_N (Z.abs_N i)) else hex_of_N (Z.abs_N i).

(** The largest allocation the Go run time grants on a 64-bit machine
    ([maxAlloc], 2^48 bytes): [make] and the string builder panic ("len out
    of range", "cap out of range") when asked for more. *)
Definition max_alloc : Z := 2 ^ 48.

(** [strings.Repeat(s, count)]: panics when [count] is negative, and when
    the [len(s) * count] bytes of the result overflow or are more than can
    be allocated. *)
Fixpoint repeat_string (s : string) (n : nat) : string :=
  match n with
  | O => ""
  | S n' => (s ++ repeat_string s n')%string
  end.

Definition Repeat (s : string) (count : Z) : outcome string :=
  if count <? 0 then Panic
  else if max_alloc <? Z.of_nat (String.length s) * count then Panic
  else Ok (repeat_string s (Z.to_nat count)).

(** [strings.HasPrefix(s, prefix)]. *)
Definition HasPrefix (s pre : string) : bool := String.prefix pre s.

(** ** pkg/blockchain/block.go *)

Record Block : Type := mkBlock {
  Index : Z;
  Timestamp : string;
  Data : string;
  Hash : string;
  PrevHash : string;
  Difficulty : Z;
  Nonce : string
}.

Definition set_Nonce (b : Block) (n : string) : Block :=
  mkBlock (Index b) (Timestamp b) (Data b) (Hash b) (PrevHash b) (Difficulty b) n.
Definition set_Hash (b : Block) (h : string) : Block :=
  mkBlock (Index b) (Timestamp b) (Data b) h (PrevHash b) (Difficulty b) (Nonce b).
Definition set_Difficulty (b : Block) (d : Z) : Block :=
  mkBlock (Index b) (Timestamp b) (Data b) (Hash b) (PrevHash b) d (Nonce b).

Definition CalculateHash (block : Block) : string :=
  let record := (Itoa (Index block) ++ Timestamp block ++ Data block
                 ++ PrevHash block ++ Nonce block)%string in
  SHA256.hex_sum record.

Definition IsHashValid (hash : string) (difficulty : Z) : outcome bool :=
  match Repeat "0" difficulty with
  | Ok pre => Ok (HasPrefix hash pre)
  | Panic => Panic
  | OutOfFuel => OutOfFuel
  end.

(** The body of the [for i := 0; ; i++] loop of [GenerateBlock], entered with
    counter [i]; [newBlock] has every field but [Nonce] and [Hash] set. *)
Fixpoint mine (fuel : nat) (i : Z) (newBlock : Block) : outcome Block :=
  match fuel with
  | O => OutOfFuel
  | S fuel' =>
      let newBlock := set_Nonce newBlock (Sprintf_x i) in
      let newBlockHash := CalculateHash newBlock in
      match IsHashValid newBlockHash (Difficulty newBlock) with
      | Ok false => mine fuel' (wrap_int (i + 1)) newBlock
      | Ok true => Ok (set_Hash newBlock newBlockHash)
      | Panic => Panic
      | OutOfFuel => OutOfFuel
      end
  end.

(** [t] is [time.Now().String()]. The error result of the source is always
    [nil] and is left out. *)
Definition GenerateBlock (fuel : nat) (t : string)
    (oldBlock : Block) (data : string) (difficulty : Z) : outcome Block :=
  let newBlock :=
    mkBlock (wrap_int (Index oldBlock + 1)) t data "" (Hash oldBlock) difficulty "" in
  mine fuel 0 newBlock.

Definition IsBlockValid (newBlock oldBlock : Block) : bool :=
  if negb (wrap_int (Index oldBlock + 1) =? Index newBlock) then false
  else if negb (String.eqb (Hash oldBlock) (PrevHash newBlock)) then false
  else if negb (String.eqb (CalculateHash newBlock) (Hash newBlock)) then false
  else true.

Definition CreateGenesisBlock (t : string) : Block :=
  let genesisBlock := mkBlock 0 t "Genesis Block" "" "" 1 "" in
  set_Hash genesisBlock (CalculateHash genesisBlock).

(** ** pkg/blockchain/chain.go

    A [Chain] is its [Blocks] slice. Every method returns the chain it
    leaves behind next to its result. *)

Definition NewBlockchain (t : string) : list Block := [CreateGenesisBlock t].

(** [bc.Blocks[len(bc.Blocks)-1]]; indexing an empty slice panics. *)
Definition GetLatestBlock (bc : list Block) : outcome Block :=
  match last bc with
  | Some b => Ok b
  | None => Panic
  end.

Definition AddBlock (fuel : nat) (t : string)
    (bc : list Block) (data : string) (difficulty : Z) : list Block * outcome Block :=
  match GetLatestBlock bc with
  | Ok tip =>
      match GenerateBlock fuel t tip data difficulty with
      | Ok newBlock =>
          if IsBlockValid newBlock tip
          then (bc ++ [newBlock], Ok newBlock)
          else (bc, Ok newBlock)
      | Panic => (bc, Panic)
      | OutOfFuel => (bc, OutOfFuel)
      end
  | Panic => (bc, Panic)
  | OutOfFuel => (bc, OutOfFuel)
  end.

(** The loop [for i := 1; i < len(newChain); i++] of [ReplaceChain], entered
    with [prev = newChain[i-1]] and [rest = newChain[i:]]; [false] is the
    early [return false]. *)
Fixpoint links_valid (prev : Block) (rest : list Block) : bool :=
  match rest with
  | [] => true
  | cur :: rest' =>
      if negb (IsBlockValid cur prev) then false else links_valid cur rest'
  end.

Definition chain_valid (newChain : list Block) : bool :=
  match newChain with
  | [] => true
  | first :: rest => links_valid first rest
  end.

Definition ReplaceChain (bc newChain : list Block) : list Block * bool :=
  if (length newChain <=? length bc)%nat then (bc, false)
  else if negb (chain_valid newChain) then (bc, false)
  else (newChain, true).

Definition GetBlocks (bc : list Block) : list Block := bc.

(** ** pkg/consensus *)

Record ProofOfWork : Type := mkPoW { pow_Difficulty : Z }.

Record ProofOfStake : Type := mkPoS {
  pos_Difficulty : Z;
  Stakers : gmap string Z
}.

(** The interface [Algorithm]. *)
Class Algorithm (A : Type) : Type := {
  ValidateBlock : A -> Block -> outcome bool;
  SetDifficulty : A -> Z -> A;
  GetDifficulty : A -> Z
}.

#[export] Instance ProofOfWork_Algorithm : Algorithm ProofOfWork := {
  ValidateBlock pow block :=
    match Repeat "0" (pow_Difficulty pow) with
    | Ok pre => Ok (HasPrefix (Hash block) pre)
    | Panic => Panic
    | OutOfFuel => OutOfFuel
    end;
  SetDifficulty pow difficulty := mkPoW difficulty;
  GetDifficulty pow := pow_Difficulty pow
}.

#[export] Instance ProofOfStake_Algorithm : Algorithm ProofOfStake := {
  ValidateBlock pos block := Ok true;
  SetDifficulty pos difficulty := mkPoS difficulty (Stakers pos);
  GetDifficulty pos := pos_Difficulty pos
}.

Definition NewProofOfStake (difficulty : Z) : ProofOfStake := mkPoS difficulty ∅.

Definition AddStaker (pos : ProofOfStake) (address : string) (stake : Z) : ProofOfStake :=
  mkPoS (pos_Difficulty pos) (<[address := stake]> (Stakers pos)).

(** ** pkg/network/p2p.go *)

Record Peer : Type := mkPeer { Address : string; LastSeen : Z }.

Record P2PServer : Type := mkP2P {
  chain : list Block;
  peers : gmap string Peer;
  port : string;
  knownBlocks : gmap string bool
}.

Definition NewP2PServer (bc : list Block) (port : string) : P2PServer :=
  mkP2P bc ∅ port ∅.

(** What the handler reads of the request: the body as [json] decodes it
    ([None] when decoding fails) and the address of the sender. *)
Record Request : Type := mkRequest {
  body : option Block;
  XForwardedFor : string;
  RemoteAddr : string
}.

Inductive Status : Type :=
| StatusOK
| StatusBadRequest
| Aborted.  (* the handler panicked; net/http recovers and drops the connection *)

(** The reply, and the peers the block is forwarded to. *)
Record Response : Type := mkResponse {
  status : Status;
  forwarded : list string
}.

(** [p.knownBlocks[hash]]: a missing key reads as [false]. *)
Definition known (p : P2PServer) (hash : string) : bool :=
  default false (knownBlocks p !! hash).

Definition AddPeer (p : P2PServer) (address : string) (now : Z) : P2PServer :=
  mkP2P (chain p) (<[address := mkPeer address now]> (peers p)) (port p) (knownBlocks p).

Definition handleBroadcastBlock (p : P2PServer) (r : Request) : P2PServer * Response :=
  match body r with
  | None => (p, mkResponse StatusBadRequest [])
  | Some block =>
      if known p (Hash block) then (p, mkResponse StatusOK [])
      else
        let p := mkP2P (chain p) (peers p) (port p)
                       (<[Hash block := true]> (knownBlocks p)) in
        match GetLatestBlock (chain p) with
        | Ok tip =>
            if IsBlockValid block tip then
              let bc := fst (ReplaceChain (chain p) (GetBlocks (chain p) ++ [block])) in
              let peerAddr :=
                if String.eqb (XForwardedFor r) "" then RemoteAddr r else XForwardedFor r in
              let targets :=
                filter (fun addr => addr ≠ peerAddr) (map fst (map_to_list (peers p))) in
              (mkP2P bc (peers p) (port p) (knownBlocks p), mkResponse StatusOK targets)
            else (p, mkResponse StatusOK [])
        | _ => (p, mkResponse Aborted [])
        end
  end.

(** The body of one round of [syncBlockchain] for one peer that answered
    with [blocks]. *)
Definition syncWith (p : P2PServer) (blocks : list Block) : P2PServer :=
  if (length (GetBlocks (chain p)) <? length blocks)%nat
  then mkP2P (fst (ReplaceChain (chain p) blocks)) (peers p) (port p) (knownBlocks p)
  else p.

(** Mining on this node: [AddBlock] on the node's chain. *)
Definition mineOn (p : P2PServer) (fuel : nat) (t data : string) (difficulty : Z) : P2PServer :=
  mkP2P (fst (AddBlock fuel t (chain p) data difficulty)) (peers p) (port p) (knownBlocks p).

(** ** The life of a chain and of a node *)

(** The two operations that change a stored chain. *)
Inductive chain_op : Type :=
| OpAddBlock (fuel : nat) (t data : string) (difficulty : Z)
| OpReplaceChain (newChain : list Block).

Definition apply_op (bc : list Block) (op : chain_op) : list Block :=
  match op with
  | OpAddBlock fuel t data difficulty => fst (AddBlock fuel t bc data difficulty)
  | OpReplaceChain newChain => fst (ReplaceChain bc newChain)
  end.

Definition run_ops (ops : list chain_op) (bc : list Block) : list Block :=
  fold_left apply_op ops bc.

(** What can happen to a node: a block is delivered, the node mines, a
    reconciliation round hears a peer's chain, a peer registers. *)
Inductive event : Type :=
| EvDeliver (r : Request)
| EvMine (fuel : nat) (t data : string) (difficulty : Z)
| EvSync (blocks : list Block)
| EvAddPeer (address : string) (now : Z).

Definition step (p : P2PServer) (ev : event) : P2PServer :=
  match ev with
  | EvDeliver r => fst (handleBroadcastBlock p r)
  | EvMine fuel t data difficulty => mineOn p fuel t data difficulty
  | EvSync blocks => syncWith p blocks
  | EvAddPeer address now => AddPeer p address now
  end.

Definition run (evs : list event) (p : P2PServer) : P2PServer :=
  fold_left step evs p.

(** ** The vocabulary of the specification *)

(** Every adjacent pair of the chain satisfies [IsBlockValid]. *)
Definition adjacent_valid (c : list Block) : Prop :=
  forall (i : nat) (cur prev : Block),
    c !! S i = Some cur -> c !! i = Some prev -> IsBlockValid cur prev = true.

(** The number of leading zero characters of a hexadecimal string. *)
Fixpoint leading_zeros (s : string) : nat :=
  match s with
  | String c s' => if Ascii.eqb c "0" then S (leading_zeros s') else O
  | EmptyString => O
  end.

Definition recomputes (b : Block) : Prop := CalculateHash b = Hash b.

Definition meets_difficulty (b : Block) : Prop :=
  Difficulty b <= Z.of_nat (leading_zeros (Hash b)).

(** The three invariants of a stored chain, in the words of the
    specification. *)
Definition indices_from_zero (c : list Block) : Prop :=
  forall (i : nat) (b : Block), c !! i = Some b -> Index b = Z.of_nat i.

Definition hash_linked (c : list Block) : Prop :=
  forall (i : nat) (cur prev : Block),
    c !! S i = Some cur -> c !! i = Some prev -> PrevHash cur = Hash prev.

Definition all_sealed (c : list Block) : Prop :=
  forall (i : nat) (b : Block), c !! i = Some b -> recomputes b /\ meets_difficulty b.

Definition stated_invariant (c : list Block) : Prop :=
  indices_from_zero c /\ hash_linked c /\ all_sealed c.

(** The block [GenerateBlock] is searching a nonce for, with the nonce of
    counter [k] filled in, and its digest. *)
Definition unsealed (t : string) (previous : Block) (payload : string) (d : Z) (k : nat) : Block :=
  mkBlock (wrap_int (Index previous + 1)) t payload "" (Hash previous) d
          (hex_of_N (N.of_nat k)).

Definition sealed (t : string) (previous : Block) (payload : string) (d : Z) (k : nat) : Block :=
  let b := unsealed t previous payload d k in set_Hash b (CalculateHash b).

(** Counter [k] is the first one whose digest has [d] leading zeros. *)
Definition first_nonce (t : string) (previous : Block) (payload : string) (d : Z) (k : nat) : Prop :=
  d <= Z.of_nat (leading_zeros (CalculateHash (unsealed t previous payload d k))) /\
  forall j : nat, (j < k)%nat ->
    Z.of_nat (leading_zeros (CalculateHash (unsealed t previous payload d j))) < d.

(** Appending in the words of the specification: whatever the payload and
    the difficulty, [AddBlock] (run long enough) returns the block sealed
    atop the tip, and leaves the old chain with that block appended only if
    [IsBlockValid] holds for it against the tip. *)
Definition stated_append (t : string) (bc : list Block) (tip : Block) : Prop :=
  forall (payload : string) (difficulty : Z),
    exists (fuel : nat) (b : Block),
      GenerateBlock fuel t tip payload difficulty = Ok b /\
      snd (AddBlock fuel t bc payload difficulty) = Ok b /\
      fst (AddBlock fuel t bc payload difficulty)
        = (if IsBlockValid b tip then bc ++ [b] else bc).

(** ** Concrete data for the worked examples *)

Definition ts0 : string := "2024-05-01 10:00:00.000000001 +0000 UTC m=+0.001".
Definition ts1 : string := "2024-05-01 10:00:05.5 +0000 UTC m=+5.5".

Definition ts2 : string := "2024-05-01 10:00:09.25 +0000 UTC m=+9.25".

Definition genesis0 : Block := Eval vm_compute in CreateGenesisBlock ts0.

(** The block mined atop [genesis0] at difficulty 1, and one sealed atop it
    at difficulty 0. *)
Definition mined1 : Block :=
  Eval vm_compute in
    match GenerateBlock 16 ts1 genesis0 "payload" 1 with
    | Ok b => b
    | _ => genesis0
    end.

Definition mined2 : Block :=
  Eval vm_compute in
    match GenerateBlock 1 ts2 mined1 "next" 0 with
    | Ok b => b
    | _ => genesis0
    end.

(** A two-block history that no node ever built: the first block claims
    index 7 and a hash that is not its digest, the second follows it
    correctly but was never mined to its difficulty of 3. *)
Definition forged0 : Block := mkBlock 7 ts0 "anything at all" "feed" "" 3 "".

Definition forged1 : Block :=
  Eval vm_compute in
    let b := mkBlock 8 ts1 "forged" "" "feed" 3 "" in set_Hash b (CalculateHash b).

Definition forged : list Block := [forged0; forged1].

Definition node0 : P2PServer := NewP2PServer [genesis0] "8080".

Definition deliver (b : Block) : Request := mkRequest (Some b) "" "10.0.0.7:51234".

(** [node0] after [mined2] arrived too early, then after [mined1] followed;
    and [node0] after [mined1] arrived in order. *)
Definition node_early : P2PServer := fst (handleBroadcastBlock node0 (deliver mined2)).
Definition node_late : P2PServer := step node_early (EvDeliver (deliver mined1)).
Definition node_once : P2PServer := fst (handleBroadcastBlock node0 (deliver mined1)).

(** ** Go maps and errors, for the code below *)

(** A call that reports failure through an [error] result. *)
Inductive result (A : Type) : Type :=
| Return (a : A)
| Error (msg : string).
Arguments Return {A} a.
Arguments Error {A} msg.

(** [for k, v := range m] visits every entry of [m] once, in an order Go
    leaves unspecified: [visit] is one such order. *)
Definition ranges {V : Type} (m : gmap string V) (visit : list (string * V)) : Prop :=
  visit ≡ₚ map_to_list m.

(** [len(m)] of a map, as an [int]. *)
Definition len {V : Type} (m : gmap string V) : Z := Z.of_nat (size m).

(** Chains grown by mining alone: the arguments of successive [AddBlock]
    calls. *)
Record add_args : Type := mkAdd {
  add_fuel : nat;
  add_time : string;
  add_data : string;
  add_difficulty : Z
}.

Definition add_op (a : add_args) : chain_op :=
  OpAddBlock (add_fuel a) (add_time a) (add_data a) (add_difficulty a).

(** What mining alone keeps true of a chain. *)
Definition mined_chain (t : string) (bc : list Block) : Prop :=
  bc !! O = Some (CreateGenesisBlock t) /\
  forall (i : nat) (b : Block), bc !! i = Some b ->
    Index b = wrap_int (Z.of_nat i) /\ recomputes b /\
    ((0 < i)%nat -> meets_difficulty b).

(** Moving the first [n] bytes of [Data] to the end of [Timestamp]. *)
Definition shift_boundary (b : Block) (n : nat) : Block :=
  mkBlock (Index b)
          (Timestamp b ++ String.substring 0 n (Data b))%string
          (String.substring n (String.length (Data b) - n) (Data b))
          (Hash b) (PrevHash b) (Difficulty b) (Nonce b).

(** ** pkg/blockchain: the transaction pool *)
Module TxPool.

(** [Value] is a [float64] and [Timestamp] a [time.Time]; the pool never
    looks at either, they are carried as their bits and nanoseconds. *)
Record Transaction : Type := mkTransaction {
  ID : string;
  From_ : string;
  To : string;
  TxData : string;
  Value : Z;
  TxTimestamp : Z;
  Signature : string
}.

(** The pool maps an ID to the transaction added under it. The source keeps
    pointers; no caller writes through one after adding it. *)
Record TransactionPool : Type := mkPool {
  pendingTransactions : gmap string Transaction;
  maxPoolSize : Z
}.

Definition NewTransactionPool (maxPoolSize : Z) : TransactionPool :=
  let maxPoolSize := if maxPoolSize <=? 0 then 1000 else maxPoolSize in
  mkPool ∅ maxPoolSize.

(** [tx] is the pointer argument: [None] is [nil], whose [tx.ID] panics.
    The error result is [None] for [nil]. *)
Definition AddTransaction (tp : TransactionPool) (tx : option Transaction)
    : TransactionPool * outcome (option string) :=
  if maxPoolSize tp <=? len (pendingTransactions tp)
  then (tp, Ok (Some "transaction pool is full"))
  else
    match tx with
    | None => (tp, Panic)
    | Some tx =>
        match pendingTransactions tp !! ID tx with
        | Some _ => (tp, Ok (Some "transaction already exists in pool"))
        | None =>
            (mkPool (<[ID tx := tx]> (pendingTransactions tp)) (maxPoolSize tp), Ok None)
        end
    end.

Definition GetTransaction (tp : TransactionPool) (txID : string) : result Transaction :=
  match pendingTransactions tp !! txID with
  | Some tx => Return tx
  | None => Error "transaction not found in pool"
  end.

Definition GetAllTransactions (tp : TransactionPool)
    (visit : list (string * Transaction)) : list Transaction :=
  map snd visit.

Definition RemoveTransaction (tp : TransactionPool) (txID : string)
    : TransactionPool * option string :=
  match pendingTransactions tp !! txID with
  | None => (tp, Some "transaction not found in pool")
  | Some _ => (mkPool (delete txID (pendingTransactions tp)) (maxPoolSize tp), None)
  end.

(** The loop of [GetBatch]: [count] transactions are already taken. *)
Fixpoint batch_loop (visit : list (string * Transaction)) (count maxCount : Z)
    : list Transaction :=
  match visit with
  | [] => []
  | (_, tx) :: visit' =>
      if maxCount <=? count then []
      else tx :: batch_loop visit' (count + 1) maxCount
  end.

(** [make([]*Transaction, 0, maxCount)] panics on a negative capacity and on
    one whose [maxCount] pointers, of 8 bytes each, are more than can be
    allocated. *)
Definition GetBatch (tp : TransactionPool) (visit : list (string * Transaction))
    (maxCount : Z) : outcome (list Transaction) :=
  if (maxCount <? 0) || (max_alloc <? 8 * maxCount) then Panic
  else Ok (batch_loop visit 0 maxCount).

Definition RemoveBatch (tp : TransactionPool) (txIDs : list string) : TransactionPool :=
  mkPool (fold_left (fun m id => delete id m) txIDs (pendingTransactions tp))
         (maxPoolSize tp).

Definition Clear (tp : TransactionPool) : TransactionPool :=
  mkPool ∅ (maxPoolSize tp).

Definition Count (tp : TransactionPool) : Z := len (pendingTransactions tp).

(** The calls that change a pool. *)
Inductive pool_op : Type :=
| PoolAdd (tx : option Transaction)
| PoolRemove (txID : string)
| PoolRemoveBatch (txIDs : list string)
| PoolClear.

Definition pool_step (tp : TransactionPool) (op : pool_op) : TransactionPool :=
  match op with
  | PoolAdd tx => fst (AddTransaction tp tx)
  | PoolRemove txID => fst (RemoveTransaction tp txID)
  | PoolRemoveBatch txIDs => RemoveBatch tp txIDs
  | PoolClear => Clear tp
  end.

Definition pool_run (ops : list pool_op) (tp : TransactionPool) : TransactionPool :=
  fold_left pool_step ops tp.

(** Every transaction sits under its own ID, as [AddTransaction] puts it. *)
Definition keyed_by_ID (tp : TransactionPool) : Prop :=
  forall (k : string) (tx : Transaction),
    pendingTransactions tp !! k = Some tx -> ID tx = k.

(** A pool with two pending transactions, for the worked examples. *)
Definition tx_a : Transaction := mkTransaction "1714557600000000001" "alice" "bob" "" 0 0 "".
Definition tx_b : Transaction := mkTransaction "1714557600000000002" "bob" "carol" "" 0 0 "".
Definition pool_ab : TransactionPool :=
  pool_run [PoolAdd (Some tx_a); PoolAdd (Some tx_b)] (NewTransactionPool 0).

End TxPool.

(** ** pkg/consensus: choosing a validator *)

(** [rand.Intn(n)]: panics unless [n > 0], and otherwise yields a number in
    [[0, n)]; [r] is what the generator draws. *)
Definition Intn (r n : Z) : outcome Z :=
  if n <=? 0 then Panic else Ok (r mod n).

(** The first loop of [SelectValidator]: the stakes added up as [int]s. *)
Definition total_stake (visit : list (string * Z)) : Z :=
  fold_left (fun totalStake e => wrap_int (totalStake + snd e)) visit 0.

(** The second loop, entered with [currentPosition]; falling out of it is the
    final [return ""]. *)
Fixpoint select_loop (visit : list (string * Z)) (selection currentPosition : Z) : string :=
  match visit with
  | [] => ""
  | (address, stake) :: visit' =>
      let currentPosition := wrap_int (currentPosition + stake) in
      if selection <? currentPosition then address
      else select_loop visit' selection currentPosition
  end.

(** [visit1] and [visit2] are the orders in which the two loops range over
    [pos.Stakers]. *)
Definition SelectValidator (pos : ProofOfStake) (visit1 visit2 : list (string * Z))
    (r : Z) : outcome string :=
  let totalStake := total_stake visit1 in
  if totalStake =? 0 then Ok ""
  else
    match Intn r totalStake with
    | Ok selection => Ok (select_loop visit2 selection 0)
    | Panic => Panic
    | OutOfFuel => OutOfFuel
    end.

(** The stakes of the visited entries, added up as numbers. *)
Definition stake_sum (visit : list (string * Z)) : Z :=
  fold_right (fun e acc => snd e + acc) 0 visit.

Definition stakers0 : ProofOfStake :=
  AddStaker (AddStaker (NewProofOfStake 1) "alice" 3) "bob" 0.

(** ** pkg/network/p2p.go: peers, discovery, reconciliation *)

(** [handlePeers]: the addresses of the registry, in the order the map
    iteration visits them. *)
Definition handlePeers (p : P2PServer) (visit : list (string * Peer)) : list string :=
  map fst visit.

(** [handleRegisterPeer]: [data] is the body as [json] decodes it into a
    [map[string]string], [None] when decoding fails. *)
Definition handleRegisterPeer (p : P2PServer) (data : option (gmap string string))
    (now : Z) : P2PServer * Status :=
  match data with
  | None => (p, StatusBadRequest)
  | Some data =>
      match data !! "address" with
      | None => (p, StatusBadRequest)
      | Some address => (AddPeer p address now, StatusOK)
      end
  end.

Definition handleSync (p : P2PServer) : list Block := GetBlocks (chain p).

(** The loop over [peerList] in [discoverPeers], for the peer at [address]:
    the node it leaves and the peers [registerWithPeer] is called on. The
    [k]-th pass through the loop reads the clock as [clock k]. *)
Fixpoint register_new (p : P2PServer) (address : string) (clock : nat -> Z) (k : nat)
    (peerList : list string) : P2PServer * list string :=
  match peerList with
  | [] => (p, [])
  | newPeer :: rest =>
      if negb (String.eqb newPeer (port p)) && negb (String.eqb newPeer address)
      then
        let p := AddPeer p newPeer (clock k) in
        let '(p, calls) := register_new p address clock (S k) rest in
        (p, newPeer :: calls)
      else register_new p address clock (S k) rest
  end.

(** One peer's share of a discovery round: [reply] is the peer list it
    answered with, [None] when the request or the decoding failed. *)
Definition discoverFrom (p : P2PServer) (address : string) (reply : option (list string))
    (clock : nat -> Z) : P2PServer * list string :=
  match reply with
  | None => (p, [])
  | Some peerList => register_new p address clock O peerList
  end.

(** Everything that can happen to a node. *)
Inductive node_event : Type :=
| NodeStep (ev : event)
| NodeRegister (data : option (gmap string string)) (now : Z)
| NodeDiscover (address : string) (reply : option (list string)) (clock : nat -> Z).

Definition node_step (p : P2PServer) (ev : node_event) : P2PServer :=
  match ev with
  | NodeStep ev => step p ev
  | NodeRegister data now => fst (handleRegisterPeer p data now)
  | NodeDiscover address reply clock => fst (discoverFrom p address reply clock)
  end.

Definition node_run (evs : list node_event) (p : P2PServer) : P2PServer :=
  fold_left node_step evs p.

(** The sender as [handleBroadcastBlock] works it out. *)
Definition sender (r : Request) : string :=
  if String.eqb (XForwardedFor r) "" then RemoteAddr r else XForwardedFor r.

(** ** pkg/api/server.go and main *)

Record BlockchainServer : Type := mkServer {
  server_chain : list Block;
  difficulty : Z
}.

Definition NewBlockchainServer (bc : list Block) (difficulty : Z) : BlockchainServer :=
  mkServer bc difficulty.

(** The difficulty [main] starts the server with: [env] is the value of
    BLOCKCHAIN_DIFFICULTY and [atoi] what [strconv.Atoi] makes of it, [None]
    for an error. *)
Definition main_difficulty (env : string) (atoi : option Z) : Z :=
  let difficulty := 1 in
  if negb (String.eqb env "") then
    match atoi with
    | Some val => if 0 <? val then val else difficulty
    | None => difficulty
    end
  else difficulty.

(** What [respondWithJSON] is given: the status code and, on success, the
    block. *)
Record WriteReply : Type := mkReply { code : Z; payload : option Block }.

(** [data] is the "data" field of the decoded body, [None] when decoding
    fails. *)
Definition handleWriteBlock (s : BlockchainServer) (data : option string)
    (fuel : nat) (t : string) : BlockchainServer * outcome WriteReply :=
  match data with
  | None => (s, Ok (mkReply 400 None))
  | Some data =>
      match AddBlock fuel t (server_chain s) data (difficulty s) with
      | (bc, Ok newBlock) => (mkServer bc (difficulty s), Ok (mkReply 201 (Some newBlock)))
      | (bc, Panic) => (mkServer bc (difficulty s), Panic)
      | (bc, OutOfFuel) => (mkServer bc (difficulty s), OutOfFuel)
      end
  end.



(** ** pkg/storage/leveldb.go

    The database is the map from keys to values that LevelDB keeps; keys and
    values are byte strings. [json.Marshal], [json.Unmarshal] on a [Block]
    and [strconv.Atoi] are the libraries' and are taken as given. A read
    fails only when the key is absent; whether each write succeeds is an
    input of the environment. *)
Module Store.

Inductive store_error : Type :=
| ErrNotInitialized     (* "database not initialized" *)
| ErrOpen               (* "failed to open leveldb: ..." *)
| ErrStoreByHash        (* "failed to store block by hash: ..." *)
| ErrStoreByIndex       (* "failed to store block by index: ..." *)
| ErrUpdateLatest       (* "failed to update latest block: ..." *)
| ErrBlockNotFound      (* "block not found: ..." *)
| ErrUnmarshal          (* "failed to unmarshal block: ..." *)
| ErrLatestNotFound     (* "latest block not found: ..." *)
| ErrGetAt (i : Z) (e : store_error).  (* "failed to get block at index i: ..." *)

(** [db] is [None] for the [nil] handle of a store not yet initialized. *)
Record LevelDBStore : Type := mkStore {
  db : option (gmap string string);
  dbPath : string;
  lastIndex : Z
}.

Definition NewLevelDBStore (dbPath : string) : LevelDBStore :=
  mkStore None dbPath (-1).

Section Codec.

Variable Marshal : Block -> string.
Variable Unmarshal : string -> option Block.
Variable Atoi : string -> option Z.

(** The body of the loop of [Initialize] for one key. *)
Definition scan_key (lastIndex : Z) (key : string) : Z :=
  if (5 <? String.length key)%nat && String.eqb (String.substring 0 5 key) "index" then
    let indexStr := String.substring 5 (String.length key - 5) key in
    match Atoi indexStr with
    | Some index => if lastIndex <? index then index else lastIndex
    | None => lastIndex
    end
  else lastIndex.

(** [opened] is what [leveldb.OpenFile] finds at [dbPath], [None] when it
    fails; [visit] is the order in which the iterator walks the keys. *)
Definition Initialize (s : LevelDBStore) (opened : option (gmap string string))
    (visit : list (string * string)) : LevelDBStore * option store_error :=
  match opened with
  | None => (s, Some ErrOpen)
  | Some contents =>
      (mkStore (Some contents) (dbPath s)
               (fold_left (fun lastIndex kv => scan_key lastIndex (fst kv))
                          visit (lastIndex s)),
       None)
  end.

(** [put1], [put2], [put3] tell whether the three writes succeed. *)
Definition SaveBlock (s : LevelDBStore) (block : Block) (put1 put2 put3 : bool)
    : LevelDBStore * option store_error :=
  match db s with
  | None => (s, Some ErrNotInitialized)
  | Some d =>
      let blockData := Marshal block in
      if negb put1 then (s, Some ErrStoreByHash)
      else
        let d := <[("hash" ++ Hash block)%string := blockData]> d in
        if negb put2 then (mkStore (Some d) (dbPath s) (lastIndex s), Some ErrStoreByIndex)
        else
          let d := <[("index" ++ Itoa (Index block))%string := blockData]> d in
          if lastIndex s <? Index block then
            if negb put3
            then (mkStore (Some d) (dbPath s) (Index block), Some ErrUpdateLatest)
            else (mkStore (Some (<["latest" := Hash block]> d)) (dbPath s) (Index block),
                  None)
          else (mkStore (Some d) (dbPath s) (lastIndex s), None)
  end.

Definition read_block (d : gmap string string) (key : string) : Block + store_error :=
  match d !! key with
  | None => inr ErrBlockNotFound
  | Some data =>
      match Unmarshal data with
      | Some block => inl block
      | None => inr ErrUnmarshal
      end
  end.

Definition GetBlock (s : LevelDBStore) (hash : string) : Block + store_error :=
  match db s with
  | None => inr ErrNotInitialized
  | Some d => read_block d ("hash" ++ hash)%string
  end.

Definition GetBlockByIndex (s : LevelDBStore) (index : Z) : Block + store_error :=
  match db s with
  | None => inr ErrNotInitialized
  | Some d => read_block d ("index" ++ Itoa index)%string
  end.

(** The loop of [GetAllBlocks]: [n] more blocks to read, from index [i]. *)
Fixpoint read_from (s : LevelDBStore) (n : nat) (i : Z) : list Block + store_error :=
  match n with
  | O => inl []
  | S n' =>
      match GetBlockByIndex s i with
      | inr e => inr (ErrGetAt i e)
      | inl block =>
          match read_from s n' (i + 1) with
          | inl blocks => inl (block :: blocks)
          | inr e => inr e
          end
      end
  end.

(** [unsafe.Sizeof(Block{})] on a 64-bit machine: two [int]s and five string
    headers. *)
Definition sizeof_Block : Z := 96.

(** The slice [make([]Block, s.lastIndex+1)] that [GetAllBlocks] fills can be
    allocated. [make] panics otherwise; the definition below is the call on
    a store for which it does not. *)
Definition slice_fits (s : LevelDBStore) : Prop :=
  0 <= lastIndex s + 1 /\ sizeof_Block * (lastIndex s + 1) <= max_alloc.

Definition GetAllBlocks (s : LevelDBStore) : list Block + store_error :=
  match db s with
  | None => inr ErrNotInitialized
  | Some _ => read_from s (Z.to_nat (lastIndex s + 1)) 0
  end.

Definition GetLatestBlock (s : LevelDBStore) : Block + store_error :=
  match db s with
  | None => inr ErrNotInitialized
  | Some d =>
      match d !! "latest" with
      | None => inr ErrLatestNotFound
      | Some hashBytes => GetBlock s hashBytes
      end
  end.

(** Saving the blocks of a chain one after the other, every write
    succeeding. *)
Definition save_all (s : LevelDBStore) (blocks : list Block) : LevelDBStore :=
  fold_left (fun s block => fst (SaveBlock s block true true true)) blocks s.

(** The database after a chain has been saved into an empty one. *)
Definition saved (path : string) (blocks : list Block) (s : LevelDBStore) : Prop :=
  exists d : gmap string string,
    s = mkStore (Some d) path (Z.of_nat (length blocks) - 1) /\
    (forall (i : nat) (b : Block), blocks !! i = Some b ->
       d !! ("index" ++ Itoa (Z.of_nat i))%string = Some (Marshal b)) /\
    (forall b : Block, last blocks = Some b ->
       d !! "latest" = Some (Hash b) /\
       d !! ("hash" ++ Hash b)%string = Some (Marshal b)) /\
    (forall k : string, is_Some (d !! k) ->
       (exists h, k = ("hash" ++ h)%string) \/ k = "latest" \/
       (exists i : nat, (i < length blocks)%nat /\ k = ("index" ++ Itoa (Z.of_nat i))%string)).

End Codec.

(** A codec for the worked examples: it knows the blocks [genesis0] and
    [mined1] and writes each as its hash. *)
Definition example_Marshal (b : Block) : string := Hash b.

Definition example_Unmarshal (data : string) : option Block :=
  if String.eqb data (Hash genesis0) then Some genesis0
  else if String.eqb data (Hash mined1) then Some mined1
  else None.

(** A decimal parser for the worked examples. *)
Definition example_Atoi (s : string) : option Z :=
  option_map Z.of_int (DecimalString.NilZero.int_of_string s).

(** A database opened empty. *)
Definition store0 : LevelDBStore := mkStore (Some ∅) "chain.db" (-1).

End Store.

(* ================================================================== *)
(** * Proofs *)

(** The digest agrees with the published test vectors of SHA-256. *)
Example sha256_empty :
  SHA256.hex_sum "" = "e3b0c44298fc1c149afbf4c8996fb92427ae41e4649b934ca495991b7852b855".
Proof. vm_compute. reflexivity. Qed.

Example sha256_abc :
  SHA256.hex_sum "abc" = "ba7816bf8f01cfea414140de5dae2223b00361a396177a9cb410ff61f20015ad".
Proof. vm_compute. reflexivity. Qed.

Example sha256_two_blocks :
  SHA256.hex_sum "abcdbcdecdefdefgefghfghighijhijkijkljklmklmnlmnomnopnopq"
  = "248d6a61d20638b8e5c026930c3e6039a33ce45964ff2167f6ecedd419db06c1".
Proof. vm_compute. reflexivity. Qed.

Example Itoa_examples : (Itoa 0, Itoa 42, Itoa (-7)) = ("0", "42", "-7").
Proof. reflexivity. Qed.

Example Sprintf_x_examples :
  (Sprintf_x 0, Sprintf_x 10, Sprintf_x 255, Sprintf_x 48879, Sprintf_x (-26))
  = ("0", "a", "ff", "beef", "-1a").
Proof. reflexivity. Qed.

Example wrap_int_examples :
  (wrap_int 5, wrap_int (max_int + 1), wrap_int (-3)) = (5, min_int, -3).
Proof. reflexivity. Qed.

(** The digest reads the index, the timestamp, the data, the previous hash
    and the nonce, and nothing else. *)
Lemma CalculateHash_fields (b b' : Block) :
  Index b = Index b' -> Timestamp b = Timestamp b' -> Data b = Data b' ->
  PrevHash b = PrevHash b' -> Nonce b = Nonce b' ->
  CalculateHash b = CalculateHash b'.
Proof.
  unfold CalculateHash. intros -> -> -> -> ->. reflexivity.
Qed.

Lemma CalculateHash_set_Difficulty (b : Block) (d : Z) :
  CalculateHash (set_Difficulty b d) = CalculateHash b.
Proof. apply CalculateHash_fields; reflexivity. Qed.

Lemma CalculateHash_set_Hash (b : Block) (h : string) :
  CalculateHash (set_Hash b h) = CalculateHash b.
Proof. apply CalculateHash_fields; reflexivity. Qed.

(** A digest is 64 hexadecimal characters, so it has at most 64 leading
    zeros. *)
Lemma hex_sum_length (s : string) : String.length (SHA256.hex_sum s) = 64%nat.
Proof.
  unfold SHA256.hex_sum, SHA256.sum, SHA256.EncodeToString.
  generalize (fold_left SHA256.compress
                (SHA256.chunks (length (SHA256.pad (SHA256.bytes_of_string s)))
                   (SHA256.pad (SHA256.bytes_of_string s))) SHA256.init).
  intros h.
  cbv [SHA256.be_bytes flat_map app map seq string_of_list_ascii String.length].
  reflexivity.
Qed.

Lemma CalculateHash_length (b : Block) : String.length (CalculateHash b) = 64%nat.
Proof. unfold CalculateHash. apply hex_sum_length. Qed.

Lemma leading_zeros_le_length (s : string) : (leading_zeros s <= String.length s)%nat.
Proof.
  induction s as [|c s IH]; simpl; [lia|].
  destruct (Ascii.eqb c "0"); lia.
Qed.

Lemma leading_zeros_digest (b : Block) :
  Z.of_nat (leading_zeros (CalculateHash b)) <= 64.
Proof.
  pose proof (leading_zeros_le_length (CalculateHash b)) as Hle.
  rewrite CalculateHash_length in Hle. lia.
Qed.

(** From here on the digest is never unfolded. *)
#[local] Opaque CalculateHash.

(** ** Blocks *)

Lemma wrap_int_small (z : Z) : min_int <= z <= max_int -> wrap_int z = z.
Proof.
  unfold wrap_int, min_int, max_int. intros Hz.
  rewrite Z.mod_small by lia. lia.
Qed.

Lemma IsBlockValid_true (newBlock oldBlock : Block) :
  IsBlockValid newBlock oldBlock = true <->
  wrap_int (Index oldBlock + 1) = Index newBlock /\
  Hash oldBlock = PrevHash newBlock /\
  CalculateHash newBlock = Hash newBlock.
Proof.
  unfold IsBlockValid.
  destruct (Z.eqb_spec (wrap_int (Index oldBlock + 1)) (Index newBlock)) as [Hi|Hi];
    simpl; [|split; [discriminate | tauto]].
  destruct (String.eqb_spec (Hash oldBlock) (PrevHash newBlock)) as [Hp|Hp];
    simpl; [|split; [discriminate | tauto]].
  destruct (String.eqb_spec (CalculateHash newBlock) (Hash newBlock)) as [Hh|Hh];
    simpl; [tauto | split; [discriminate | tauto]].
Qed.


(** C4. [IsBlockValid candidate previous] holds exactly when the candidate's
    index is the previous index plus one (in Go's [int] arithmetic), its
    [PrevHash] is the previous block's [Hash], and the digest recomputed over
    its fields is its stored [Hash]. The [Difficulty] field of either block
    plays no part: overwriting both with any values leaves the answer
    unchanged. *)
Theorem IsBlockValid_spec (candidate previous : Block) :
  (IsBlockValid candidate previous = true <->
     Index candidate = wrap_int (Index previous + 1) /\
     PrevHash candidate = Hash previous /\
     CalculateHash candidate = Hash candidate) /\
  (forall d d' : Z,
     IsBlockValid (set_Difficulty candidate d) (set_Difficulty previous d')
     = IsBlockValid candidate previous).
Proof.
  split.
  - rewrite IsBlockValid_true. intuition congruence.
  - intros d d'. unfold IsBlockValid.
    rewrite CalculateHash_set_Difficulty. reflexivity.
Qed.

(** Below the top of the [int] range the index test is the mathematical
    successor. *)
Lemma IsBlockValid_index (candidate previous : Block) :
  min_int <= Index previous < max_int ->
  IsBlockValid candidate previous = true ->
  Index candidate = Index previous + 1.
Proof.
  intros Hr Hv. apply IsBlockValid_true in Hv as (Hi & _ & _).
  rewrite wrap_int_small in Hi by lia. congruence.
Qed.

(** ** Chains *)

Lemma links_valid_spec (rest : list Block) (prev : Block) :
  links_valid prev rest = true <-> adjacent_valid (prev :: rest).
Proof.
  revert prev. induction rest as [|cur rest IH]; intros prev; simpl.
  - split; [|reflexivity]. intros _ i x y Hx. destruct i; discriminate.
  - destruct (IsBlockValid cur prev) eqn:Hv; simpl.
    + rewrite IH. split.
      * intros Hadj [|i] x y Hx Hy; simpl in *.
        -- congruence.
        -- exact (Hadj i x y Hx Hy).
      * intros Hadj i x y Hx Hy. exact (Hadj (S i) x y Hx Hy).
    + split; [discriminate|]. intros Hadj.
      specialize (Hadj O cur prev eq_refl eq_refl). congruence.
Qed.

Lemma chain_valid_spec (c : list Block) :
  chain_valid c = true <-> adjacent_valid c.
Proof.
  destruct c as [|first rest]; simpl.
  - split; [|reflexivity]. intros _ i x y Hx. discriminate.
  - apply links_valid_spec.
Qed.

Lemma ReplaceChain_cases (bc newChain : list Block) :
  ReplaceChain bc newChain =
    if decide ((length bc < length newChain)%nat /\ chain_valid newChain = true)
    then (newChain, true) else (bc, false).
Proof.
  unfold ReplaceChain.
  destruct (Nat.leb_spec (length newChain) (length bc)) as [Hl|Hl].
  - rewrite decide_False by lia. reflexivity.
  - destruct (chain_valid newChain) eqn:Hv; simpl.
    + rewrite decide_True by auto. reflexivity.
    + rewrite decide_False by (intros [_ ?]; discriminate). reflexivity.
Qed.

(** C1. [ReplaceChain] installs the candidate and answers [true] exactly
    when the candidate is strictly longer than the local chain and every
    adjacent pair of the candidate satisfies [IsBlockValid]; otherwise, a
    candidate of equal length included, it answers [false] and the local
    chain stays as it was. *)
Theorem ReplaceChain_spec (bc candidate : list Block) :
  (snd (ReplaceChain bc candidate) = true <->
     (length bc < length candidate)%nat /\ adjacent_valid candidate) /\
  fst (ReplaceChain bc candidate)
    = (if snd (ReplaceChain bc candidate) then candidate else bc) /\
  (length candidate = length bc -> ReplaceChain bc candidate = (bc, false)).
Proof.
  rewrite ReplaceChain_cases.
  destruct (decide _) as [[Hl Hv]|Hn]; simpl.
  - split; [|split; [reflexivity | lia]].
    split; [|reflexivity]. intros _. split; [exact Hl|].
    apply chain_valid_spec, Hv.
  - split; [|split; [reflexivity | reflexivity]].
    split; [discriminate|]. intros [Hl Hv]. exfalso. apply Hn.
    split; [exact Hl | apply chain_valid_spec, Hv].
Qed.

Lemma ReplaceChain_length (bc newChain : list Block) :
  (length bc <= length (fst (ReplaceChain bc newChain)))%nat.
Proof.
  rewrite ReplaceChain_cases. destruct (decide _) as [[Hl _]|_]; simpl; lia.
Qed.

Lemma AddBlock_length (fuel : nat) (t : string) (bc : list Block) (data : string) (d : Z) :
  (length bc <= length (fst (AddBlock fuel t bc data d)))%nat.
Proof.
  unfold AddBlock.
  destruct (GetLatestBlock bc) as [tip| |]; simpl; try lia.
  destruct (GenerateBlock fuel t tip data d) as [b| |]; simpl; try lia.
  destruct (IsBlockValid b tip); simpl; rewrite ?length_app; simpl; lia.
Qed.

(** C5. Neither [AddBlock] nor [ReplaceChain] ever shortens the stored
    chain, and so no sequence of them does. *)
Theorem chain_length_monotone (bc : list Block) :
  (forall op : chain_op, (length bc <= length (apply_op bc op))%nat) /\
  (forall ops : list chain_op, (length bc <= length (run_ops ops bc))%nat).
Proof.
  assert (Hone : forall c op, (length c <= length (apply_op c op))%nat).
  { intros c [fuel t data d|newChain]; simpl.
    - apply AddBlock_length.
    - apply ReplaceChain_length. }
  split; [apply Hone|].
  intros ops. revert bc. induction ops as [|op ops IH]; intros bc; simpl.
  - lia.
  - etransitivity; [apply (Hone bc op) | apply IH].
Qed.

(** ** The nonce search *)

Lemma repeat_zero_S (n : nat) :
  repeat_string "0" (S n) = String "0" (repeat_string "0" n).
Proof. reflexivity. Qed.

Lemma prefix_String (a b : ascii) (s1 s2 : string) :
  String.prefix (String a s1) (String b s2)
  = if ascii_dec a b then String.prefix s1 s2 else false.
Proof. reflexivity. Qed.

Lemma HasPrefix_zeros (n : nat) (h : string) :
  HasPrefix h (repeat_string "0" n) = true <-> (n <= leading_zeros h)%nat.
Proof.
  unfold HasPrefix. revert h. induction n as [|n IH]; intros h.
  - split; [simpl; lia | destruct h; reflexivity].
  - rewrite repeat_zero_S. destruct h as [|c h].
    + simpl. split; [discriminate | lia].
    + rewrite prefix_String. cbn [leading_zeros].
      destruct (ascii_dec "0" c) as [<-|Hc].
      * rewrite Ascii.eqb_refl, IH. lia.
      * destruct (Ascii.eqb_spec c "0") as [->|_]; [congruence|].
        split; [discriminate | lia].
Qed.

(** The prefix of [d] zeros that [IsHashValid] and the proof-of-work
    [ValidateBlock] build: a panic outside [[0, max_alloc]]. *)
Lemma Repeat_zero (d : Z) :
  Repeat "0" d
  = if (d <? 0) || (max_alloc <? d) then Panic
    else Ok (repeat_string "0" (Z.to_nat d)).
Proof.
  unfold Repeat. change (Z.of_nat (String.length "0")) with 1.
  rewrite Z.mul_1_l. destruct (d <? 0), (max_alloc <? d); reflexivity.
Qed.

Lemma max_alloc_64 : 64 < max_alloc.
Proof. reflexivity. Qed.

Lemma IsHashValid_spec (h : string) (d : Z) :
  0 <= d <= max_alloc ->
  IsHashValid h d = Ok (bool_decide (d <= Z.of_nat (leading_zeros h))).
Proof.
  intros Hd. unfold IsHashValid. rewrite Repeat_zero.
  destruct (Z.ltb_spec d 0) as [?|_]; [lia|].
  destruct (Z.ltb_spec max_alloc d) as [?|_]; [lia|]. simpl. f_equal.
  destruct (HasPrefix h (repeat_string "0" (Z.to_nat d))) eqn:Hp.
  - apply HasPrefix_zeros in Hp. rewrite bool_decide_eq_true_2 by lia. reflexivity.
  - rewrite bool_decide_eq_false_2; [reflexivity|]. intros Hle.
    assert (HasPrefix h (repeat_string "0" (Z.to_nat d)) = true) as Hp'
      by (apply HasPrefix_zeros; lia).
    congruence.
Qed.

Lemma IsHashValid_negative (h : string) (d : Z) : d < 0 -> IsHashValid h d = Panic.
Proof.
  intros Hd. unfold IsHashValid. rewrite Repeat_zero.
  destruct (Z.ltb_spec d 0); [reflexivity | lia].
Qed.

Lemma IsHashValid_unallocatable (h : string) (d : Z) :
  max_alloc < d -> IsHashValid h d = Panic.
Proof.
  intros Hd. unfold IsHashValid. rewrite Repeat_zero.
  destruct (Z.ltb_spec max_alloc d); [|lia].
  rewrite orb_true_r. reflexivity.
Qed.

Lemma Sprintf_x_nat (k : nat) : Sprintf_x (Z.of_nat k) = hex_of_N (N.of_nat k).
Proof.
  unfold Sprintf_x. destruct (Z.ltb_spec (Z.of_nat k) 0); [lia|].
  f_equal. lia.
Qed.

(** The search entered at counter [k] finds the first valid counter [n >= k]. *)
Lemma mine_finds (t : string) (previous : Block) (payload : string) (d : Z) :
  0 <= d ->
  forall (gap k fuel : nat) (nonce : string),
    first_nonce t previous payload d (k + gap) ->
    Z.of_nat (k + gap) < 2 ^ 63 ->
    (gap < fuel)%nat ->
    mine fuel (Z.of_nat k)
         (mkBlock (wrap_int (Index previous + 1)) t payload "" (Hash previous) d nonce)
    = Ok (sealed t previous payload d (k + gap)).
Proof.
  intros Hd. induction gap as [|gap IH]; intros k fuel nonce [Hok Hbefore] Hk Hf;
    assert (H64 : d <= 64) by (etransitivity; [exact Hok | apply leading_zeros_digest]);
    pose proof max_alloc_64 as Hmax;
    (destruct fuel as [|fuel]; [lia|]); simpl;
    unfold set_Nonce; simpl; rewrite Sprintf_x_nat, IsHashValid_spec by lia.
  - replace (k + 0)%nat with k in * by lia.
    fold (unsealed t previous payload d k).
    rewrite bool_decide_eq_true_2 by exact Hok. reflexivity.
  - fold (unsealed t previous payload d k).
    rewrite bool_decide_eq_false_2 by (specialize (Hbefore k); lia).
    rewrite wrap_int_small by (unfold min_int, max_int; lia).
    replace (Z.of_nat k + 1) with (Z.of_nat (S k)) by lia.
    replace (k + S gap)%nat with (S k + gap)%nat in * by lia.
    apply IH; [split; assumption | lia | lia].
Qed.

(** Whatever the search returns is the block sealed at the first valid
    counter. *)
Lemma mine_returns (t : string) (previous : Block) (payload : string) (d : Z) :
  0 <= d ->
  forall (fuel k : nat) (nonce : string) (b : Block),
    Z.of_nat (k + fuel) <= 2 ^ 63 ->
    (forall j : nat, (j < k)%nat ->
       Z.of_nat (leading_zeros (CalculateHash (unsealed t previous payload d j))) < d) ->
    mine fuel (Z.of_nat k)
         (mkBlock (wrap_int (Index previous + 1)) t payload "" (Hash previous) d nonce)
    = Ok b ->
    exists n : nat, (k <= n < k + fuel)%nat /\
      first_nonce t previous payload d n /\ b = sealed t previous payload d n.
Proof.
  intros Hd. induction fuel as [|fuel IH]; intros k nonce b Hk Hbefore; simpl.
  - discriminate.
  - unfold set_Nonce; simpl.
    destruct (Z.ltb_spec max_alloc d) as [Hbig|Hfit];
      [rewrite IsHashValid_unallocatable by exact Hbig; discriminate|].
    rewrite Sprintf_x_nat, IsHashValid_spec by lia.
    fold (unsealed t previous payload d k).
    destruct (bool_decide_reflect
                (d <= Z.of_nat (leading_zeros (CalculateHash (unsealed t previous payload d k)))))
      as [Hok|Hno].
    + intros [= <-]. exists k. split; [lia|]. split; [split; assumption | reflexivity].
    + destruct fuel as [|fuel']; [discriminate|].
      rewrite wrap_int_small by (unfold min_int, max_int; lia).
      replace (Z.of_nat k + 1) with (Z.of_nat (S k)) by lia.
      intros Hm. apply IH in Hm as (n & Hn & Hfirst & ->).
      * exists n. split; [lia|]. split; [exact Hfirst | reflexivity].
      * lia.
      * intros j Hj. destruct (decide (j = k)) as [->|Hne]; [lia|]. apply Hbefore. lia.
Qed.

Lemma GenerateBlock_returns (fuel : nat) (t : string) (previous : Block)
    (payload : string) (d : Z) (b : Block) :
  0 <= d -> Z.of_nat fuel <= 2 ^ 63 ->
  GenerateBlock fuel t previous payload d = Ok b ->
  exists k : nat, (k < fuel)%nat /\ first_nonce t previous payload d k /\
    b = sealed t previous payload d k.
Proof.
  intros Hd Hf Hg. unfold GenerateBlock in Hg.
  apply (mine_returns t previous payload d Hd fuel O "" b) in Hg
    as (n & Hn & Hfirst & ->).
  - exists n. split; [lia | split; [exact Hfirst | reflexivity]].
  - simpl. lia.
  - intros j Hj. lia.
Qed.

Lemma GenerateBlock_finds (fuel k : nat) (t : string) (previous : Block)
    (payload : string) (d : Z) :
  0 <= d -> Z.of_nat k < 2 ^ 63 -> first_nonce t previous payload d k ->
  (k < fuel)%nat ->
  GenerateBlock fuel t previous payload d = Ok (sealed t previous payload d k).
Proof.
  intros Hd Hk Hfirst Hf. unfold GenerateBlock.
  exact (mine_finds t previous payload d Hd k O fuel "" Hfirst Hk Hf).
Qed.

Lemma first_nonce_zero (t : string) (previous : Block) (payload : string) :
  first_nonce t previous payload 0 O.
Proof. split; [lia | intros j Hj; lia]. Qed.

(** A block sealed atop [previous] always passes [IsBlockValid] against it. *)
Lemma sealed_valid (t : string) (previous : Block) (payload : string) (d : Z) (k : nat) :
  IsBlockValid (sealed t previous payload d k) previous = true.
Proof.
  apply IsBlockValid_true. unfold sealed. simpl.
  split; [reflexivity | split; [reflexivity|]].
  apply CalculateHash_set_Hash.
Qed.

(** C3. Sealing a block atop [previous] with a difficulty [d >= 0].
    - Whatever [GenerateBlock] returns has index [previous.Index + 1],
      [PrevHash = previous.Hash], the given payload, timestamp and
      difficulty; its nonce is the lowercase hexadecimal rendering of the
      first counter in 0, 1, 2, ... whose digest has [d] leading zeros, and
      its stored hash is the digest of its fields, with at least [d]
      leading zeros.
    - If such a counter [k] exists, any search of more than [k] iterations
      returns that block.
    - With [d = 0] the first nonce tried is accepted: the search returns
      after one iteration with nonce "0". *)
Theorem GenerateBlock_spec (t : string) (previous : Block) (payload : string) (d : Z) :
  0 <= d ->
  (forall (fuel : nat) (b : Block),
     Z.of_nat fuel <= 2 ^ 63 ->
     GenerateBlock fuel t previous payload d = Ok b ->
     Index b = wrap_int (Index previous + 1) /\
     PrevHash b = Hash previous /\
     Data b = payload /\ Timestamp b = t /\ Difficulty b = d /\
     (exists k : nat,
        Nonce b = hex_of_N (N.of_nat k) /\
        forall j : nat, (j < k)%nat ->
          Z.of_nat (leading_zeros (CalculateHash (set_Nonce b (hex_of_N (N.of_nat j))))) < d) /\
     Hash b = CalculateHash b /\
     d <= Z.of_nat (leading_zeros (Hash b))) /\
  (forall k fuel : nat,
     Z.of_nat k < 2 ^ 63 -> first_nonce t previous payload d k -> (k < fuel)%nat ->
     GenerateBlock fuel t previous payload d = Ok (sealed t previous payload d k)) /\
  (d = 0 ->
     forall fuel : nat,
       GenerateBlock (S fuel) t previous payload d = Ok (sealed t previous payload d O) /\
       Nonce (sealed t previous payload d O) = "0").
Proof.
  intros Hd. split; [|split].
  - intros fuel b Hf Hg.
    destruct (GenerateBlock_returns fuel t previous payload d b Hd Hf Hg)
      as (k & Hk & [Hok Hbefore] & ->).
    unfold sealed; simpl.
    repeat (split; [reflexivity|]).
    split; [|split].
    + exists k. split; [reflexivity|]. intros j Hj.
      specialize (Hbefore j Hj).
      erewrite CalculateHash_fields; [exact Hbefore | reflexivity ..].
    + symmetry. apply CalculateHash_set_Hash.
    + exact Hok.
  - intros k fuel Hk Hfirst Hf. apply GenerateBlock_finds; assumption.
  - intros -> fuel. split; [|reflexivity].
    apply GenerateBlock_finds; [lia | reflexivity | apply first_nonce_zero | lia].
Qed.

(** The worked example: atop [genesis0] at difficulty 1 the search accepts
    the fourth nonce it tries. *)
Lemma mined1_generated : GenerateBlock 16 ts1 genesis0 "payload" 1 = Ok mined1.
Proof. vm_compute. reflexivity. Qed.

Lemma GenerateBlock_spec_witness :
  0 <= 1 /\
  Index mined1 = 1 /\ PrevHash mined1 = Hash genesis0 /\ Nonce mined1 = "3" /\
  Hash mined1 = CalculateHash mined1 /\
  1 <= Z.of_nat (leading_zeros (Hash mined1)).
Proof.
  assert (H0 : 0 <= 1) by lia.
  assert (Hf : Z.of_nat 16 <= 2 ^ 63) by (vm_compute; discriminate).
  destruct (GenerateBlock_spec ts1 genesis0 "payload" 1 H0) as [Hret _].
  destruct (Hret 16%nat mined1 Hf mined1_generated)
    as (Hi & Hp & _ & _ & _ & _ & Hh & Hz).
  split; [exact H0|]. split; [exact Hi|]. split; [exact Hp|].
  split; [reflexivity|]. split; [exact Hh | exact Hz].
Defined.

(** Whatever the search returns keeps the index and the previous hash it
    was entered with, and stores the digest of its own fields. *)
Lemma mine_sealed (fuel : nat) :
  forall (i : Z) (newBlock b : Block),
    mine fuel i newBlock = Ok b ->
    Index b = Index newBlock /\ PrevHash b = PrevHash newBlock /\
    CalculateHash b = Hash b.
Proof.
  induction fuel as [|fuel IH]; intros i newBlock b; simpl; [discriminate|].
  destruct (IsHashValid _ _) as [[|]| |]; try discriminate.
  - intros [= <-]. simpl. split; [reflexivity | split; [reflexivity|]].
    apply CalculateHash_set_Hash.
  - intros Hm. apply IH in Hm as (Hi & Hp & Hh). simpl in Hi, Hp. auto.
Qed.

(** A block sealed atop [previous] passes [IsBlockValid] against it, so
    [AddBlock] appends whenever sealing returns. *)
Lemma GenerateBlock_valid (fuel : nat) (t : string) (previous : Block)
    (payload : string) (d : Z) (b : Block) :
  GenerateBlock fuel t previous payload d = Ok b -> IsBlockValid b previous = true.
Proof.
  intros Hg. apply mine_sealed in Hg as (Hi & Hp & Hh). simpl in Hi, Hp.
  apply IsBlockValid_true. auto.
Qed.

Lemma GenerateBlock_negative (fuel : nat) (t : string) (previous : Block) (payload : string) (d : Z) :
  d < 0 -> GenerateBlock (S fuel) t previous payload d = Panic.
Proof.
  intros Hd. unfold GenerateBlock. simpl.
  rewrite IsHashValid_negative by exact Hd. reflexivity.
Qed.

(** The search leaves the timestamp alone. *)
Lemma mine_Timestamp (fuel : nat) :
  forall (i : Z) (newBlock b : Block),
    mine fuel i newBlock = Ok b -> Timestamp b = Timestamp newBlock.
Proof.
  induction fuel as [|fuel IH]; intros i newBlock b; simpl; [discriminate|].
  destruct (IsHashValid _ _) as [[|]| |]; try discriminate.
  - intros [= <-]. reflexivity.
  - intros Hm. apply IH in Hm. exact Hm.
Qed.

(** The search returns only blocks that meet the difficulty it was given. *)
Lemma mine_meets (fuel : nat) :
  forall (i : Z) (newBlock b : Block),
    mine fuel i newBlock = Ok b ->
    Difficulty b = Difficulty newBlock /\ Data b = Data newBlock /\
    0 <= Difficulty b /\ meets_difficulty b.
Proof.
  induction fuel as [|fuel IH]; intros i newBlock b; simpl; [discriminate|].
  destruct (Z.ltb_spec (Difficulty newBlock) 0) as [Hneg|Hpos];
    [rewrite IsHashValid_negative by exact Hneg; discriminate|].
  destruct (Z.ltb_spec max_alloc (Difficulty newBlock)) as [Hbig|Hfit].
  - rewrite IsHashValid_unallocatable by exact Hbig. discriminate.
  - rewrite IsHashValid_spec by lia.
    destruct (bool_decide_reflect
                (Difficulty newBlock
                 <= Z.of_nat (leading_zeros
                      (CalculateHash (set_Nonce newBlock (Sprintf_x i)))))) as [Hok|_].
    + intros [= <-]. unfold meets_difficulty. simpl. auto.
    + intros Hm. apply IH in Hm. simpl in Hm. exact Hm.
Qed.

(** Whatever the search returns stores a digest, whose leading zeros the
    difficulty cannot exceed. *)
Lemma mine_above_64 (fuel : nat) (i : Z) (newBlock b : Block) :
  64 < Difficulty newBlock -> mine fuel i newBlock <> Ok b.
Proof.
  intros Hd Hm.
  pose proof (mine_sealed fuel i newBlock b Hm) as (_ & _ & Hh).
  apply mine_meets in Hm as (Hdiff & _ & _ & Hmeets).
  unfold meets_difficulty in Hmeets. rewrite <- Hh in Hmeets.
  pose proof (leading_zeros_digest b). lia.
Qed.

Lemma GenerateBlock_unallocatable (fuel : nat) (t : string) (previous : Block)
    (payload : string) (d : Z) :
  max_alloc < d -> GenerateBlock (S fuel) t previous payload d = Panic.
Proof.
  intros Hd. unfold GenerateBlock. simpl.
  rewrite IsHashValid_unallocatable by exact Hd. reflexivity.
Qed.

Lemma AddBlock_no_block (fuel : nat) (t : string) (bc : list Block)
    (payload : string) (d : Z) :
  (forall (tip b : Block), GenerateBlock fuel t tip payload d <> Ok b) ->
  fst (AddBlock fuel t bc payload d) = bc /\
  forall b : Block, snd (AddBlock fuel t bc payload d) <> Ok b.
Proof.
  intros Hg. unfold AddBlock.
  destruct (GetLatestBlock bc) as [tip| |]; simpl;
    try (split; [reflexivity | discriminate]).
  destruct (GenerateBlock fuel t tip payload d) as [b| |] eqn:Hb; simpl;
    try (split; [reflexivity | discriminate]).
  exfalso. exact (Hg tip b Hb).
Qed.

Lemma AddBlock_panics (fuel : nat) (t : string) (bc : list Block)
    (payload : string) (d : Z) :
  (forall tip : Block, GenerateBlock fuel t tip payload d = Panic) ->
  AddBlock fuel t bc payload d = (bc, Panic).
Proof.
  intros Hg. unfold AddBlock.
  destruct (GetLatestBlock bc) as [tip| |] eqn:Htip.
  - rewrite Hg. reflexivity.
  - reflexivity.
  - unfold GetLatestBlock in Htip. destruct (last bc); discriminate.
Qed.

(** C7, as stated, fails: [AddBlock] does not return a block for every
    difficulty. With difficulty -1 the first nonce tried panics in
    [strings.Repeat], and with difficulty 65 no nonce is ever accepted; the
    chain is left as it was. *)
Lemma AddBlock_spec_counterexample :
  AddBlock 1 ts1 [genesis0] "payload" (-1) = ([genesis0], Panic) /\
  (forall (fuel : nat) (b : Block),
     snd (AddBlock fuel ts1 [genesis0] "payload" (-1)) <> Ok b) /\
  (forall (fuel : nat) (b : Block),
     snd (AddBlock fuel ts1 [genesis0] "payload" 65) <> Ok b) /\
  ~ stated_append ts1 [genesis0] genesis0.
Proof.
  assert (Hneg : forall (fuel : nat) (b : Block),
            snd (AddBlock fuel ts1 [genesis0] "payload" (-1)) <> Ok b).
  { intros [|fuel] b; [discriminate|].
    rewrite (AddBlock_panics (S fuel) ts1 [genesis0] "payload" (-1)); [discriminate|].
    intros tip. apply GenerateBlock_negative. lia. }
  split; [|split; [exact Hneg|split]].
  - apply AddBlock_panics. intros tip. apply GenerateBlock_negative. lia.
  - intros fuel. apply AddBlock_no_block. intros tip b.
    unfold GenerateBlock. apply mine_above_64. simpl. lia.
  - intros Hstated. destruct (Hstated "payload" (-1)) as (fuel & b & _ & Hret & _).
    exact (Hneg fuel b Hret).
Qed.

(** C7, amended. [AddBlock] on a chain with tip [tip].
    - If [k] is the first counter whose digest has [d >= 0] leading zeros,
      any call of more than [k] iterations returns the block sealed atop
      the tip at that counter, and the chain is the old one with that block
      appended.
    - Whatever block [AddBlock] returns is the block [GenerateBlock] sealed
      atop the tip: it has the tip's index plus one, the tip's hash as
      [PrevHash], the payload, the timestamp and the difficulty given, its
      stored hash is its digest, with at least [d] leading zeros, and it is
      the block sealed at the first valid counter. The chain left behind is
      the old one with that block appended if [IsBlockValid] holds for it
      against the tip, and the old one otherwise; [IsBlockValid] does hold.
    - When no block is returned the chain is left as it was.
    - No block is returned when the difficulty is negative or above 64; the
      call panics on the first nonce when the difficulty is negative or
      more than [strings.Repeat] can allocate. *)
Theorem AddBlock_spec (fuel : nat) (t : string) (bc : list Block)
    (payload : string) (d : Z) (tip : Block) :
  GetLatestBlock bc = Ok tip ->
  (forall k : nat,
     0 <= d -> Z.of_nat k < 2 ^ 63 -> first_nonce t tip payload d k -> (k < fuel)%nat ->
     AddBlock fuel t bc payload d
     = (bc ++ [sealed t tip payload d k], Ok (sealed t tip payload d k))) /\
  (forall b : Block,
     snd (AddBlock fuel t bc payload d) = Ok b ->
     GenerateBlock fuel t tip payload d = Ok b /\
     fst (AddBlock fuel t bc payload d)
       = (if IsBlockValid b tip then bc ++ [b] else bc) /\
     IsBlockValid b tip = true /\
     Index b = wrap_int (Index tip + 1) /\ PrevHash b = Hash tip /\
     Data b = payload /\ Timestamp b = t /\ Difficulty b = d /\
     Hash b = CalculateHash b /\
     0 <= d <= Z.of_nat (leading_zeros (Hash b)) /\
     (Z.of_nat fuel <= 2 ^ 63 ->
      exists k : nat, (k < fuel)%nat /\ first_nonce t tip payload d k /\
        b = sealed t tip payload d k)) /\
  ((forall b : Block, snd (AddBlock fuel t bc payload d) <> Ok b) ->
   fst (AddBlock fuel t bc payload d) = bc) /\
  (d < 0 \/ 64 < d ->
   forall b : Block, snd (AddBlock fuel t bc payload d) <> Ok b) /\
  (d < 0 \/ max_alloc < d ->
   forall fuel' : nat, AddBlock (S fuel') t bc payload d = (bc, Panic)).
Proof.
  intros Htip. split; [|split; [|split; [|split]]].
  - intros k Hd Hk Hfirst Hf. unfold AddBlock. rewrite Htip.
    rewrite (GenerateBlock_finds fuel k t tip payload d Hd Hk Hfirst Hf).
    rewrite sealed_valid. reflexivity.
  - intros b. unfold AddBlock. rewrite Htip.
    destruct (GenerateBlock fuel t tip payload d) as [b'| |] eqn:Hg;
      [|discriminate ..].
    pose proof (GenerateBlock_valid fuel t tip payload d b' Hg) as Hv.
    rewrite Hv. simpl. intros [= <-].
    split; [reflexivity|]. split; [rewrite Hv; reflexivity|]. split; [exact Hv|].
    pose proof (mine_sealed _ _ _ _ Hg) as (Hi & Hp & Hh).
    pose proof (mine_Timestamp _ _ _ _ Hg) as Ht.
    pose proof (mine_meets _ _ _ _ Hg) as (Hdiff & Hdata & Hpos & Hm).
    simpl in Hi, Hp, Ht, Hdiff, Hdata. unfold meets_difficulty in Hm.
    repeat (split; [congruence|]).
    split; [lia|]. intros Hfuel.
    apply GenerateBlock_returns; [lia | exact Hfuel | exact Hg].
  - unfold AddBlock. rewrite Htip.
    destruct (GenerateBlock fuel t tip payload d) as [b| |]; simpl; try reflexivity.
    destruct (IsBlockValid b tip); simpl; intros H; [|reflexivity].
    exfalso. exact (H b eq_refl).
  - intros [Hneg|Hbig]; apply AddBlock_no_block; intros tip' b Hg.
    + apply mine_meets in Hg as (Hdiff & _ & Hpos & _). simpl in Hdiff. lia.
    + revert Hg. unfold GenerateBlock. apply mine_above_64. simpl. exact Hbig.
  - intros Hd fuel'. apply AddBlock_panics. intros tip'.
    destruct Hd as [Hneg|Hbig];
      [apply GenerateBlock_negative, Hneg | apply GenerateBlock_unallocatable, Hbig].
Qed.

Lemma AddBlock_mined1 :
  AddBlock 16 ts1 [genesis0] "payload" 1 = ([genesis0] ++ [mined1], Ok mined1).
Proof.
  unfold AddBlock. change (GetLatestBlock [genesis0]) with (Ok genesis0).
  cbv beta iota. rewrite mined1_generated.
  rewrite (GenerateBlock_valid _ _ _ _ _ _ mined1_generated). reflexivity.
Qed.

Lemma AddBlock_spec_witness :
  GenerateBlock 16 ts1 genesis0 "payload" 1 = Ok mined1 /\
  fst (AddBlock 16 ts1 [genesis0] "payload" 1)
    = (if IsBlockValid mined1 genesis0 then [genesis0] ++ [mined1] else [genesis0]) /\
  IsBlockValid mined1 genesis0 = true /\
  Index mined1 = 1 /\ PrevHash mined1 = Hash genesis0 /\ Data mined1 = "payload" /\
  AddBlock 1 ts1 [genesis0] "payload" (-1) = ([genesis0], Panic).
Proof.
  destruct (AddBlock_spec 16 ts1 [genesis0] "payload" 1 genesis0 eq_refl)
    as (_ & Hret & _).
  destruct (Hret mined1 (f_equal snd AddBlock_mined1))
    as (Hg & Hfst & Hv & Hi & Hp & Hdata & _).
  destruct (AddBlock_spec 0 ts1 [genesis0] "payload" (-1) genesis0 eq_refl)
    as (_ & _ & _ & _ & Hpanic).
  split; [exact Hg|]. split; [exact Hfst|]. split; [exact Hv|].
  split; [exact Hi|]. split; [exact Hp|]. split; [exact Hdata|].
  apply Hpanic. left. lia.
Defined.

Lemma AddBlock_appends (fuel : nat) (t : string) (bc : list Block)
    (payload : string) (d : Z) (tip b : Block) :
  GetLatestBlock bc = Ok tip ->
  GenerateBlock fuel t tip payload d = Ok b ->
  AddBlock fuel t bc payload d = (bc ++ [b], Ok b).
Proof.
  intros Htip Hg. unfold AddBlock. rewrite Htip, Hg.
  rewrite (GenerateBlock_valid fuel t tip payload d b Hg). reflexivity.
Qed.

(** When sealing does not return, [AddBlock] returns no block and leaves the
    chain alone; a negative difficulty is such a case. *)
Lemma AddBlock_no_seal (fuel : nat) (t : string) (bc : list Block) (payload : string) (d : Z) :
  (forall b, snd (AddBlock fuel t bc payload d) <> Ok b) ->
  fst (AddBlock fuel t bc payload d) = bc.
Proof.
  unfold AddBlock. destruct (GetLatestBlock bc) as [tip| |]; simpl; try reflexivity.
  destruct (GenerateBlock fuel t tip payload d) as [b| |]; simpl; try reflexivity.
  destruct (IsBlockValid b tip); simpl; intros H; [|reflexivity].
  exfalso. exact (H b eq_refl).
Qed.

(** ** Consensus *)

(** C8. The proof-of-stake [ValidateBlock] answers [true] for every block,
    whatever the strategy's difficulty and stakers. *)
Theorem ProofOfStake_ValidateBlock_true (pos : ProofOfStake) (block : Block) :
  ValidateBlock pos block = Ok true.
Proof. reflexivity. Qed.

(** The proof-of-work strategy, by contrast, does look at the hash. *)
Example ProofOfWork_ValidateBlock_rejects :
  ValidateBlock (mkPoW 1) genesis0 = Ok false.
Proof. reflexivity. Qed.

(** ** Chains a node can hold *)

Lemma adjacent_valid_snoc (bc : list Block) (tip b : Block) :
  adjacent_valid bc -> last bc = Some tip -> IsBlockValid b tip = true ->
  adjacent_valid (bc ++ [b]).
Proof.
  intros Hadj Htip Hv i cur prev Hcur Hprev.
  destruct (decide (S i < length bc)%nat) as [Hlt|Hge].
  - rewrite lookup_app_l in Hcur by lia. rewrite lookup_app_l in Hprev by lia.
    exact (Hadj i cur prev Hcur Hprev).
  - assert (Hlen : (S i < length (bc ++ [b]))%nat)
      by (apply lookup_lt_is_Some; eauto).
    rewrite length_app in Hlen. simpl in Hlen.
    assert (Hi : S i = length bc) by lia.
    rewrite lookup_app_r in Hcur by lia.
    replace (S i - length bc)%nat with O in Hcur by lia.
    rewrite lookup_app_l in Hprev by lia.
    rewrite last_lookup in Htip.
    replace (Nat.pred (length bc)) with i in Htip by lia.
    simpl in Hcur. congruence.
Qed.

Lemma GetLatestBlock_Ok (bc : list Block) (tip : Block) :
  GetLatestBlock bc = Ok tip <-> last bc = Some tip.
Proof.
  unfold GetLatestBlock. destruct (last bc); split; congruence.
Qed.

Lemma AddBlock_preserves (fuel : nat) (t : string) (bc : list Block) (data : string) (d : Z) :
  bc <> [] /\ adjacent_valid bc ->
  fst (AddBlock fuel t bc data d) <> [] /\ adjacent_valid (fst (AddBlock fuel t bc data d)).
Proof.
  intros [Hne Hadj]. unfold AddBlock.
  destruct (GetLatestBlock bc) as [tip| |] eqn:Htip; simpl; auto.
  destruct (GenerateBlock fuel t tip data d) as [b| |]; simpl; auto.
  destruct (IsBlockValid b tip) eqn:Hv; simpl; auto.
  split.
  - destruct bc; discriminate.
  - apply GetLatestBlock_Ok in Htip. eapply adjacent_valid_snoc; eauto.
Qed.

Lemma ReplaceChain_preserves (bc newChain : list Block) :
  bc <> [] /\ adjacent_valid bc ->
  fst (ReplaceChain bc newChain) <> [] /\ adjacent_valid (fst (ReplaceChain bc newChain)).
Proof.
  intros [Hne Hadj]. rewrite ReplaceChain_cases.
  destruct (decide _) as [[Hl Hv]|_]; simpl; auto.
  split.
  - destruct newChain; [simpl in Hl; lia | discriminate].
  - apply chain_valid_spec, Hv.
Qed.

Lemma run_ops_preserves (ops : list chain_op) (bc : list Block) :
  bc <> [] /\ adjacent_valid bc ->
  run_ops ops bc <> [] /\ adjacent_valid (run_ops ops bc).
Proof.
  revert bc. induction ops as [|op ops IH]; intros bc Hbc; simpl; [exact Hbc|].
  apply IH. destruct op; simpl.
  - apply AddBlock_preserves, Hbc.
  - apply ReplaceChain_preserves, Hbc.
Qed.

Lemma NewBlockchain_ok (t : string) :
  NewBlockchain t <> [] /\ adjacent_valid (NewBlockchain t).
Proof.
  split; [discriminate|]. intros i cur prev Hcur. destruct i; discriminate.
Qed.

(** C2, as amended. Every chain a node can hold (the genesis chain, then any
    sequence of [AddBlock] and [ReplaceChain]) is non-empty, and each block
    after the first has the index of its predecessor plus one, the
    predecessor's hash as [PrevHash], and a stored hash equal to the digest
    of its fields. *)
Theorem stored_chain_invariant (t : string) (ops : list chain_op) :
  run_ops ops (NewBlockchain t) <> [] /\
  forall (i : nat) (cur prev : Block),
    run_ops ops (NewBlockchain t) !! S i = Some cur ->
    run_ops ops (NewBlockchain t) !! i = Some prev ->
    Index cur = wrap_int (Index prev + 1) /\
    PrevHash cur = Hash prev /\
    CalculateHash cur = Hash cur.
Proof.
  destruct (run_ops_preserves ops (NewBlockchain t) (NewBlockchain_ok t)) as [Hne Hadj].
  split; [exact Hne|]. intros i cur prev Hcur Hprev.
  specialize (Hadj i cur prev Hcur Hprev).
  apply IsBlockValid_true in Hadj. intuition congruence.
Qed.

Lemma forged1_digest : CalculateHash forged1 = Hash forged1.
Proof. vm_compute. reflexivity. Qed.

Lemma forged0_digest :
  CalculateHash forged0 = "b86b01f25ae33a9d8d52b25bf6114a69d5e10568b51179d69519567fffb350d6".
Proof. vm_compute. reflexivity. Qed.

Lemma forged1_valid : IsBlockValid forged1 forged0 = true.
Proof.
  apply IsBlockValid_true. split; [reflexivity | split; [reflexivity|]].
  exact forged1_digest.
Qed.

Lemma forged_valid : adjacent_valid forged.
Proof.
  apply chain_valid_spec. unfold forged, chain_valid, links_valid.
  rewrite forged1_valid. reflexivity.
Qed.

Lemma forged_installed : ReplaceChain (NewBlockchain ts0) forged = (forged, true).
Proof.
  rewrite ReplaceChain_cases. rewrite decide_True; [reflexivity|].
  split; [simpl; lia | apply chain_valid_spec, forged_valid].
Qed.

(** C2, as stated, fails. The genesis chain itself breaks (c): the digest of
    [genesis0] has no leading zero although its difficulty is 1. And once
    [ReplaceChain] has installed [forged], the stored chain starts at index
    7, its first block's hash is not its digest, and its second block misses
    its own difficulty. *)
Lemma stated_invariant_counterexample :
  ~ stated_invariant (run_ops [] (NewBlockchain ts0)) /\
  ~ indices_from_zero (run_ops [OpReplaceChain forged] (NewBlockchain ts0)) /\
  ~ all_sealed (run_ops [OpReplaceChain forged] (NewBlockchain ts0)) /\
  ~ (forall (t : string) (ops : list chain_op),
       stated_invariant (run_ops ops (NewBlockchain t))).
Proof.
  assert (Hgen : ~ stated_invariant (run_ops [] (NewBlockchain ts0))).
  { intros (_ & _ & Hsealed).
    destruct (Hsealed O genesis0 eq_refl) as [_ Hd].
    unfold meets_difficulty in Hd. simpl in Hd. lia. }
  assert (Hrun : run_ops [OpReplaceChain forged] (NewBlockchain ts0) = forged).
  { unfold run_ops. simpl. rewrite forged_installed. reflexivity. }
  split; [exact Hgen|]. rewrite Hrun. split; [|split].
  - intros Hidx. specialize (Hidx O forged0 eq_refl). discriminate.
  - intros Hsealed. destruct (Hsealed O forged0 eq_refl) as [Hr _].
    unfold recomputes in Hr. rewrite forged0_digest in Hr. discriminate.
  - intros Hall. exact (Hgen (Hall ts0 [])).
Qed.

(** The second block of [forged] was never mined: its difficulty is 3, its
    hash has no leading zero. *)
Example forged1_unmined : ~ meets_difficulty forged1.
Proof. unfold meets_difficulty. simpl. lia. Qed.

(** C9. [ReplaceChain] never looks at the candidate's first block on its
    own. Whatever block comes first (any index, any data, any stored hash),
    following it with a block sealed atop it gives a candidate that replaces
    a genesis chain. [forged] is such a candidate: it is longer than the
    local chain, its one adjacent pair is valid, its first block has index 7,
    not 0, and a stored hash that is not the digest of its fields; it is
    installed and [true] is returned. *)
Theorem ReplaceChain_first_block_unchecked :
  (forall (first : Block) (t t' payload : string),
     let candidate := [first; sealed t' first payload 0 O] in
     ReplaceChain (NewBlockchain t) candidate = (candidate, true)) /\
  (exists (bc candidate : list Block) (first : Block),
     candidate !! O = Some first /\
     (length bc < length candidate)%nat /\
     adjacent_valid candidate /\
     Index first <> 0 /\
     CalculateHash first <> Hash first /\
     ReplaceChain bc candidate = (candidate, true)).
Proof.
  split.
  - intros first t t' payload candidate. rewrite ReplaceChain_cases.
    rewrite decide_True; [reflexivity|].
    split; [simpl; lia|]. unfold candidate, chain_valid, links_valid.
    rewrite sealed_valid. reflexivity.
  - exists (NewBlockchain ts0), forged, forged0.
    split; [reflexivity|]. split; [simpl; lia|]. split; [exact forged_valid|].
    split; [discriminate|]. split; [|exact forged_installed].
    rewrite forged0_digest. discriminate.
Qed.

(** ** Gossip *)

Lemma known_marked (bc : list Block) (ps : gmap string Peer) (pt h : string)
    (kb : gmap string bool) :
  known (mkP2P bc ps pt (<[h := true]> kb)) h = true.
Proof. unfold known. simpl. rewrite lookup_insert_eq. reflexivity. Qed.

Lemma known_marked_other (bc : list Block) (ps : gmap string Peer) (pt h h' : string)
    (kb : gmap string bool) :
  known (mkP2P bc ps pt kb) h = true ->
  known (mkP2P bc ps pt (<[h' := true]> kb)) h = true.
Proof.
  unfold known. simpl. intros Hk.
  destruct (decide (h' = h)) as [->|Hne].
  - rewrite lookup_insert_eq. reflexivity.
  - rewrite lookup_insert_ne by exact Hne. exact Hk.
Qed.

(** A delivery whose hash is already known is acknowledged and nothing
    else happens. *)
Lemma handleBroadcastBlock_known (p : P2PServer) (r : Request) (block : Block) :
  body r = Some block -> known p (Hash block) = true ->
  handleBroadcastBlock p r = (p, mkResponse StatusOK []).
Proof.
  intros Hb Hk. unfold handleBroadcastBlock. rewrite Hb, Hk. reflexivity.
Qed.

(** The handler only ever touches the chain and the known-block set. *)
Lemma handleBroadcastBlock_frame (p : P2PServer) (r : Request) :
  peers (fst (handleBroadcastBlock p r)) = peers p /\
  port (fst (handleBroadcastBlock p r)) = port p.
Proof.
  unfold handleBroadcastBlock. destruct (body r) as [block|]; [|auto].
  destruct (known p (Hash block)); [auto|]. simpl.
  destruct (GetLatestBlock (chain p)) as [tip| |]; simpl; auto.
  destruct (IsBlockValid block tip); simpl; auto.
Qed.

(** After a delivery the block's hash is known, whatever became of the
    block. *)
Lemma handleBroadcastBlock_marks (p : P2PServer) (r : Request) (block : Block) :
  body r = Some block ->
  known (fst (handleBroadcastBlock p r)) (Hash block) = true.
Proof.
  intros Hb. unfold handleBroadcastBlock. rewrite Hb.
  destruct (known p (Hash block)) eqn:Hk; [exact Hk|]. simpl.
  destruct (GetLatestBlock (chain p)) as [tip| |]; simpl;
    try apply known_marked.
  destruct (IsBlockValid block tip); simpl; apply known_marked.
Qed.

(** Nothing a node does ever removes a hash from the known-block set. *)
Lemma step_known (p : P2PServer) (ev : event) (h : string) :
  known p h = true -> known (step p ev) h = true.
Proof.
  intros Hk. destruct ev as [r|fuel t data d|blocks|address now]; simpl.
  - unfold handleBroadcastBlock. destruct (body r) as [block|]; [|exact Hk].
    destruct (known p (Hash block)); [exact Hk|]. simpl.
    destruct p as [bc ps pt kb]. simpl in *.
    destruct (GetLatestBlock bc) as [tip| |]; simpl;
      try (apply known_marked_other; exact Hk).
    destruct (IsBlockValid block tip); simpl; apply known_marked_other; exact Hk.
  - exact Hk.
  - unfold syncWith. destruct (_ <? _)%nat; exact Hk.
  - exact Hk.
Qed.

Lemma run_known (evs : list event) (p : P2PServer) (h : string) :
  known p h = true -> known (run evs p) h = true.
Proof.
  revert p. induction evs as [|ev evs IH]; intros p Hk; simpl; [exact Hk|].
  apply IH, step_known, Hk.
Qed.


(** C10. The hash is marked as seen before the block is validated. So when
    a delivered block fails [IsBlockValid] against the tip of the moment, the
    chain is left alone but the hash is known from then on; and whatever the
    node does next, every later delivery of that block, from any sender, is
    acknowledged and changes nothing: the handler never puts the block in
    the chain. *)
Theorem rejected_block_never_accepted (p : P2PServer) (r : Request) (block tip : Block) :
  body r = Some block ->
  GetLatestBlock (chain p) = Ok tip ->
  IsBlockValid block tip = false ->
  chain (fst (handleBroadcastBlock p r)) = chain p /\
  known (fst (handleBroadcastBlock p r)) (Hash block) = true /\
  forall (evs : list event) (r' : Request),
    body r' = Some block ->
    handleBroadcastBlock (run evs (fst (handleBroadcastBlock p r))) r'
      = (run evs (fst (handleBroadcastBlock p r)), mkResponse StatusOK []).
Proof.
  intros Hb Htip Hv. split; [|split].
  - unfold handleBroadcastBlock. rewrite Hb.
    destruct (known p (Hash block)); [reflexivity|]. simpl.
    rewrite Htip, Hv. reflexivity.
  - apply handleBroadcastBlock_marks, Hb.
  - intros evs r' Hb'. apply (handleBroadcastBlock_known _ r' block Hb').
    apply run_known, handleBroadcastBlock_marks, Hb.
Qed.

(** *** Worked deliveries on [node0] *)

Lemma mined1_valid : IsBlockValid mined1 genesis0 = true.
Proof. vm_compute. reflexivity. Qed.

Lemma mined2_valid : IsBlockValid mined2 mined1 = true.
Proof. vm_compute. reflexivity. Qed.

Lemma mined2_early : IsBlockValid mined2 genesis0 = false.
Proof. reflexivity. Qed.

Lemma ReplaceChain_spec_witness :
  ReplaceChain [genesis0] [mined1] = ([genesis0], false).
Proof.
  exact (proj2 (proj2 (ReplaceChain_spec [genesis0] [mined1])) eq_refl).
Defined.


(** [mined2] reaches [node0] before its predecessor [mined1]. *)
Lemma rejected_block_never_accepted_witness :
  IsBlockValid mined2 genesis0 = false /\
  chain (fst (handleBroadcastBlock node0 (deliver mined2))) = [genesis0] /\
  handleBroadcastBlock
    (run [EvDeliver (deliver mined1)] (fst (handleBroadcastBlock node0 (deliver mined2))))
    (deliver mined2)
  = (run [EvDeliver (deliver mined1)] (fst (handleBroadcastBlock node0 (deliver mined2))),
     mkResponse StatusOK []).
Proof.
  destruct (rejected_block_never_accepted node0 (deliver mined2) mined2 genesis0
              eq_refl eq_refl mined2_early) as (Hchain & _ & Hlater).
  split; [exact mined2_early|]. split; [exact Hchain|].
  exact (Hlater [EvDeliver (deliver mined1)] (deliver mined2) eq_refl).
Defined.

(** The predecessor then arrives and is appended; [mined2] would now pass
    [IsBlockValid] against the tip, yet delivering it again changes
    nothing. *)
Lemma node_late_chain : chain node_late = [genesis0; mined1].
Proof. vm_compute. reflexivity. Qed.

Example early_block_is_lost :
  GetLatestBlock (chain node_late) = Ok mined1 /\
  IsBlockValid mined2 mined1 = true /\
  handleBroadcastBlock node_late (deliver mined2) = (node_late, mkResponse StatusOK []).
Proof.
  split; [rewrite node_late_chain; reflexivity|]. split; [exact mined2_valid|].
  apply (handleBroadcastBlock_known node_late (deliver mined2) mined2 eq_refl).
  apply (step_known node_early (EvDeliver (deliver mined1)) (Hash mined2)).
  apply (handleBroadcastBlock_marks node0 (deliver mined2) mined2 eq_refl).
Qed.

(** A block delivered in order is appended once; delivering it again does
    not duplicate it. *)
Lemma node_once_chain : chain node_once = [genesis0; mined1].
Proof. vm_compute. reflexivity. Qed.

Example in_order_delivery :
  known node_once (Hash mined1) = true /\
  handleBroadcastBlock node_once (deliver mined1) = (node_once, mkResponse StatusOK []).
Proof.
  assert (Hk : known node_once (Hash mined1) = true)
    by apply (handleBroadcastBlock_marks node0 (deliver mined1) mined1 eq_refl).
  split; [exact Hk|].
  exact (handleBroadcastBlock_known node_once (deliver mined1) mined1 eq_refl Hk).
Qed.

(** A longer candidate with one broken link is refused whole. *)
Example broken_link_refused :
  let bad := set_Hash genesis0 "00" in
  ReplaceChain [genesis0] [bad; mined1; mined2] = ([genesis0], false).
Proof. vm_compute. reflexivity. Qed.

(* ================================================================== *)
(** * Further properties of the code *)

(** ** Sealing and appending *)

(** X1. Whenever sealing atop the tip returns a block, [AddBlock] appends
    exactly that block: the chain grows by one, the returned block is the new
    tip, it carries the payload and the difficulty asked for and meets that
    difficulty. *)
Theorem AddBlock_extends (fuel : nat) (t : string) (bc : list Block)
    (payload : string) (d : Z) (tip b : Block) :
  GetLatestBlock bc = Ok tip ->
  GenerateBlock fuel t tip payload d = Ok b ->
  AddBlock fuel t bc payload d = (bc ++ [b], Ok b) /\
  GetLatestBlock (bc ++ [b]) = Ok b /\
  IsBlockValid b tip = true /\
  Data b = payload /\ Difficulty b = d /\ meets_difficulty b.
Proof.
  intros Htip Hg.
  pose proof (GenerateBlock_valid fuel t tip payload d b Hg) as Hv.
  split; [|split; [|split; [exact Hv|]]].
  - unfold AddBlock. rewrite Htip, Hg, Hv. reflexivity.
  - unfold GetLatestBlock. rewrite last_snoc. reflexivity.
  - apply mine_meets in Hg as (Hd & Hdata & _ & Hm). simpl in Hd, Hdata. auto.
Qed.

Lemma AddBlock_extends_witness :
  AddBlock 16 ts1 [genesis0] "payload" 1 = ([genesis0] ++ [mined1], Ok mined1) /\
  GetLatestBlock ([genesis0] ++ [mined1]) = Ok mined1.
Proof.
  destruct (AddBlock_extends 16 ts1 [genesis0] "payload" 1 genesis0 mined1
              eq_refl mined1_generated) as (Ha & Ht & _).
  split; [exact Ha | exact Ht].
Defined.

(** ** Difficulties no digest can meet *)

(** X2. A digest has 64 hexadecimal characters, so no nonce meets a
    difficulty above 64: however much fuel it is given, [GenerateBlock]
    returns no block, and [AddBlock] neither returns a block nor touches the
    chain. When the difficulty is more than [strings.Repeat] can allocate,
    the first nonce tried already panics. *)
Theorem GenerateBlock_above_64 (fuel : nat) (t : string) (previous : Block)
    (payload : string) (d : Z) (bc : list Block) :
  64 < d ->
  (forall b : Block, GenerateBlock fuel t previous payload d <> Ok b) /\
  fst (AddBlock fuel t bc payload d) = bc /\
  (forall b : Block, snd (AddBlock fuel t bc payload d) <> Ok b) /\
  (max_alloc < d ->
     GenerateBlock (S fuel) t previous payload d = Panic /\
     AddBlock (S fuel) t bc payload d = (bc, Panic)).
Proof.
  intros Hd.
  assert (Hg : forall prev b, GenerateBlock fuel t prev payload d <> Ok b)
    by (intros prev b; unfold GenerateBlock; apply mine_above_64; simpl; exact Hd).
  split; [apply Hg|].
  destruct (AddBlock_no_block fuel t bc payload d Hg) as [Hfst Hsnd].
  split; [exact Hfst|]. split; [exact Hsnd|].
  intros Hbig. split; [apply GenerateBlock_unallocatable, Hbig|].
  apply AddBlock_panics. intros tip. apply GenerateBlock_unallocatable, Hbig.
Qed.

Lemma GenerateBlock_above_64_witness :
  (forall b : Block, GenerateBlock 1000 ts1 genesis0 "payload" 65 <> Ok b) /\
  fst (AddBlock 1000 ts1 [genesis0] "payload" 65) = [genesis0] /\
  AddBlock 1 ts1 [genesis0] "payload" (2 ^ 62) = ([genesis0], Panic).
Proof.
  destruct (GenerateBlock_above_64 1000 ts1 genesis0 "payload" 65 [genesis0]
              ltac:(lia)) as (Hg & Ha & _).
  destruct (GenerateBlock_above_64 0 ts1 genesis0 "payload" (2 ^ 62) [genesis0]
              ltac:(lia)) as (_ & _ & _ & Hp).
  split; [exact Hg|]. split; [exact Ha|].
  exact (proj2 (Hp ltac:(reflexivity))).
Defined.

(** X3. A negative difficulty makes [strings.Repeat] panic on the first
    nonce tried: [AddBlock] panics and the chain is left as it was. *)
Theorem AddBlock_negative_difficulty (fuel : nat) (t : string) (bc : list Block)
    (payload : string) (d : Z) :
  d < 0 ->
  AddBlock (S fuel) t bc payload d = (bc, Panic).
Proof.
  intros Hd. unfold AddBlock.
  destruct (GetLatestBlock bc) as [tip| |] eqn:Htip; try reflexivity.
  - rewrite GenerateBlock_negative by exact Hd. reflexivity.
  - unfold GetLatestBlock in Htip. destruct (last bc); discriminate.
Qed.

Lemma AddBlock_negative_difficulty_witness :
  AddBlock 1 ts1 [genesis0] "payload" (-1) = ([genesis0], Panic).
Proof.
  exact (AddBlock_negative_difficulty 0 ts1 [genesis0] "payload" (-1) ltac:(lia)).
Defined.

(** ** What the digest does not bind *)

Lemma string_app_assoc (s1 s2 s3 : string) :
  ((s1 ++ s2) ++ s3 = s1 ++ (s2 ++ s3))%string.
Proof.
  induction s1 as [|c s1 IH]; [reflexivity|].
  change (String c ((s1 ++ s2) ++ s3) = String c (s1 ++ (s2 ++ s3)))%string.
  f_equal. exact IH.
Qed.

Lemma substring_all (s : string) : String.substring 0 (String.length s) s = s.
Proof. induction s as [|c s IH]; simpl; [reflexivity | f_equal; exact IH]. Qed.

Lemma substring_split (s : string) :
  forall n : nat,
    (String.substring 0 n s ++ String.substring n (String.length s - n) s = s)%string.
Proof.
  induction s as [|c s IH]; intros [|n]; try reflexivity.
  - change (String.substring 0 (S (String.length s)) (String c s) = String c s).
    simpl. f_equal. apply substring_all.
  - change (String c (String.substring 0 n s
                      ++ String.substring n (String.length s - n) s)%string
            = String c s).
    f_equal. apply IH.
Qed.

Lemma substring_length_prefix (s : string) :
  forall n : nat, (n <= String.length s)%nat ->
    String.length (String.substring 0 n s) = n.
Proof.
  induction s as [|c s IH]; intros [|n] Hn; simpl in *; try reflexivity; try lia.
  f_equal. apply IH. lia.
Qed.

Lemma string_app_length (s1 s2 : string) :
  String.length (s1 ++ s2) = (String.length s1 + String.length s2)%nat.
Proof.
  induction s1 as [|c s1 IH]; [reflexivity|].
  change (S (String.length (s1 ++ s2)) = S (String.length s1 + String.length s2)).
  f_equal. exact IH.
Qed.

#[local] Transparent CalculateHash.
Lemma CalculateHash_shift_boundary (b : Block) (n : nat) :
  CalculateHash (shift_boundary b n) = CalculateHash b.
Proof.
  unfold CalculateHash, shift_boundary. simpl. f_equal. f_equal.
  rewrite string_app_assoc. f_equal.
  rewrite <- string_app_assoc. f_equal. apply substring_split.
Qed.
#[local] Opaque CalculateHash.

(** X4. The digest is taken over the fields written one after the other
    with nothing between them, so it does not say where one field ends:
    moving leading bytes of [Data] to the end of [Timestamp] gives a
    different block with the same digest, and [IsBlockValid] accepts one
    exactly when it accepts the other. *)
Theorem digest_ignores_field_boundary (b : Block) (n : nat) :
  CalculateHash (shift_boundary b n) = CalculateHash b /\
  (forall previous : Block,
     IsBlockValid (shift_boundary b n) previous = IsBlockValid b previous) /\
  ((0 < n <= String.length (Data b))%nat -> shift_boundary b n <> b).
Proof.
  split; [apply CalculateHash_shift_boundary|]. split.
  - intros previous. unfold IsBlockValid.
    rewrite CalculateHash_shift_boundary. reflexivity.
  - intros Hn Heq. apply (f_equal Timestamp) in Heq. simpl in Heq.
    apply (f_equal String.length) in Heq.
    rewrite string_app_length, substring_length_prefix in Heq by lia. lia.
Qed.

Lemma digest_ignores_field_boundary_witness :
  shift_boundary mined1 3 <> mined1 /\
  IsBlockValid (shift_boundary mined1 3) genesis0 = true.
Proof.
  destruct (digest_ignores_field_boundary mined1 3) as (_ & Hv & Hne).
  split; [apply Hne; simpl; lia|].
  rewrite Hv. exact mined1_valid.
Defined.

(** ** Proof of work *)

(** X5. The proof-of-work strategy accepts a block whose hash is a Go
    string, no longer than the run time can allocate, exactly when its
    difficulty setting is between 0 and the number of leading zeros of that
    hash. Whatever the hash, it accepts exactly when the setting is moreover
    no more than [strings.Repeat] can allocate; it panics on a negative
    setting and on one above that limit. So a block sealed by
    [GenerateBlock] at difficulty [d] is accepted under every setting from 0
    to [d]. *)
Theorem ProofOfWork_ValidateBlock_spec (pow : ProofOfWork) (block : Block) :
  (Z.of_nat (String.length (Hash block)) <= max_alloc ->
   (ValidateBlock pow block = Ok true <->
      0 <= GetDifficulty pow <= Z.of_nat (leading_zeros (Hash block)))) /\
  (ValidateBlock pow block = Ok true <->
     0 <= GetDifficulty pow <= Z.of_nat (leading_zeros (Hash block)) /\
     GetDifficulty pow <= max_alloc) /\
  (GetDifficulty pow < 0 \/ max_alloc < GetDifficulty pow ->
     ValidateBlock pow block = Panic) /\
  (forall (fuel : nat) (t : string) (previous : Block) (payload : string) (d d' : Z),
     GenerateBlock fuel t previous payload d = Ok block ->
     0 <= d' <= d ->
     ValidateBlock (SetDifficulty pow d') block = Ok true).
Proof.
  assert (Hiff : forall p : ProofOfWork, ValidateBlock p block = Ok true <->
            0 <= GetDifficulty p <= Z.of_nat (leading_zeros (Hash block)) /\
            GetDifficulty p <= max_alloc).
  { intros p.
    change (ValidateBlock p block) with (IsHashValid (Hash block) (pow_Difficulty p)).
    change (GetDifficulty p) with (pow_Difficulty p).
    destruct (Z.ltb_spec (pow_Difficulty p) 0) as [Hneg|Hpos];
      [rewrite IsHashValid_negative by exact Hneg; split; [discriminate | lia]|].
    destruct (Z.ltb_spec max_alloc (pow_Difficulty p)) as [Hbig|Hfit];
      [rewrite IsHashValid_unallocatable by exact Hbig; split; [discriminate | lia]|].
    rewrite IsHashValid_spec by lia. split.
    - intros [= H]. apply bool_decide_eq_true_1 in H. lia.
    - intros H. rewrite bool_decide_eq_true_2 by lia. reflexivity. }
  split; [|split; [apply Hiff|split]].
  - intros Hlen. rewrite Hiff.
    pose proof (leading_zeros_le_length (Hash block)). lia.
  - change (ValidateBlock pow block) with (IsHashValid (Hash block) (GetDifficulty pow)).
    intros [Hneg|Hbig];
      [apply IsHashValid_negative, Hneg | apply IsHashValid_unallocatable, Hbig].
  - intros fuel t previous payload d d' Hg Hd.
    pose proof (mine_sealed _ _ _ _ Hg) as (_ & _ & Hh).
    apply mine_meets in Hg as (Hdiff & _ & _ & Hm). simpl in Hdiff.
    unfold meets_difficulty in Hm.
    pose proof (leading_zeros_digest block) as H64. rewrite Hh in H64.
    pose proof max_alloc_64.
    apply Hiff. simpl. lia.
Qed.

Lemma ProofOfWork_ValidateBlock_spec_witness :
  ValidateBlock (SetDifficulty (mkPoW 5) 1) mined1 = Ok true /\
  ValidateBlock (mkPoW (-1)) mined1 = Panic.
Proof.
  destruct (ProofOfWork_ValidateBlock_spec (mkPoW 5) mined1) as (_ & _ & _ & Hs).
  destruct (ProofOfWork_ValidateBlock_spec (mkPoW (-1)) mined1) as (_ & _ & Hn & _).
  split.
  - exact (Hs 16%nat ts1 genesis0 "payload" 1 1 mined1_generated ltac:(lia)).
  - apply Hn. left. simpl. lia.
Defined.

(** ** Replacing and growing *)

(** X6. Offering [ReplaceChain] the same candidate a second time is always
    refused and changes nothing: either the first offer installed it, and it
    is no longer strictly longer, or the first offer was refused, and so is
    the second. *)
Theorem ReplaceChain_replay_refused (bc candidate : list Block) :
  ReplaceChain (fst (ReplaceChain bc candidate)) candidate
  = (fst (ReplaceChain bc candidate), false).
Proof.
  rewrite (ReplaceChain_cases bc candidate).
  destruct (decide _) as [[Hl Hv]|Hn]; simpl; rewrite ReplaceChain_cases.
  - rewrite decide_False by lia. reflexivity.
  - rewrite decide_False by exact Hn. reflexivity.
Qed.

Lemma wrap_int_succ (z : Z) : wrap_int (wrap_int z + 1) = wrap_int (z + 1).
Proof.
  unfold wrap_int.
  replace ((z + 2 ^ 63) mod 2 ^ 64 - 2 ^ 63 + 1 + 2 ^ 63)
    with ((z + 2 ^ 63) mod 2 ^ 64 + 1) by lia.
  rewrite Zplus_mod_idemp_l. f_equal. f_equal. lia.
Qed.


Lemma run_ops_snoc (ops : list chain_op) (op : chain_op) (bc : list Block) :
  run_ops (ops ++ [op]) bc = apply_op (run_ops ops bc) op.
Proof. unfold run_ops. rewrite fold_left_app. reflexivity. Qed.

Lemma mined_chain_genesis (t : string) : mined_chain t (NewBlockchain t).
Proof.
  split; [reflexivity|]. intros [|i] b Hb; [|discriminate].
  injection Hb as <-. split; [reflexivity|]. split; [|lia].
  unfold recomputes, CreateGenesisBlock. apply CalculateHash_set_Hash.
Qed.

Lemma mined_chain_add (t : string) (bc : list Block) (a : add_args) :
  mined_chain t bc -> mined_chain t (apply_op bc (add_op a)).
Proof.
  intros [Hgen Hall]. destruct a as [fuel t' data d]. simpl. unfold AddBlock.
  destruct (GetLatestBlock bc) as [tip| |] eqn:Htip; simpl; try (split; assumption).
  destruct (GenerateBlock fuel t' tip data d) as [b| |] eqn:Hg; simpl;
    try (split; assumption).
  rewrite (GenerateBlock_valid _ _ _ _ _ _ Hg). simpl.
  apply GetLatestBlock_Ok in Htip. rewrite last_lookup in Htip.
  assert (Hlen : (0 < length bc)%nat)
    by (apply lookup_lt_Some in Hgen; exact Hgen).
  split.
  - rewrite lookup_app_l by exact Hlen. exact Hgen.
  - intros i b' Hb'.
    destruct (decide (i < length bc)%nat) as [Hlt|Hge].
    + rewrite lookup_app_l in Hb' by exact Hlt. exact (Hall i b' Hb').
    + assert (Hi : (i < length (bc ++ [b]))%nat) by (eapply lookup_lt_Some; eauto).
      rewrite length_app in Hi. simpl in Hi.
      assert (i = length bc) as -> by lia.
      rewrite lookup_app_r, Nat.sub_diag in Hb' by lia.
      injection Hb' as <-.
      destruct (Hall _ tip Htip) as (Htipi & _ & _).
      pose proof (mine_sealed _ _ _ _ Hg) as (Hi' & _ & Hh).
      pose proof (mine_meets _ _ _ _ Hg) as (_ & _ & _ & Hm).
      simpl in Hi'. split; [|split; [exact Hh | intros _; exact Hm]].
      rewrite Hi', Htipi, wrap_int_succ. f_equal. lia.
Qed.

Lemma mined_chain_run (t : string) (adds : list add_args) :
  mined_chain t (run_ops (map add_op adds) (NewBlockchain t)).
Proof.
  induction adds as [|a adds IH] using rev_ind.
  - apply mined_chain_genesis.
  - rewrite map_app. simpl. rewrite run_ops_snoc. apply mined_chain_add, IH.
Qed.

(** X7. A chain that has only ever grown by [AddBlock] from the genesis
    block keeps the genesis block first; the block at position [i] has index
    [i] (as an [int]; exactly [i] for a chain of at most 2^63 blocks), its
    stored hash is the digest of its fields, it names its predecessor's
    hash, and every block but the genesis block has as many leading zeros as
    its own difficulty asks. *)
Theorem mining_keeps_chain_sealed (t : string) (adds : list add_args) :
  mined_chain t (run_ops (map add_op adds) (NewBlockchain t)) /\
  hash_linked (run_ops (map add_op adds) (NewBlockchain t)) /\
  (Z.of_nat (length (run_ops (map add_op adds) (NewBlockchain t))) <= 2 ^ 63 ->
   indices_from_zero (run_ops (map add_op adds) (NewBlockchain t))).
Proof.
  pose proof (mined_chain_run t adds) as Hm.
  split; [exact Hm|]. split.
  - destruct (run_ops_preserves (map add_op adds) (NewBlockchain t)
                (NewBlockchain_ok t)) as [_ Hadj].
    intros i cur prev Hcur Hprev.
    specialize (Hadj i cur prev Hcur Hprev).
    apply IsBlockValid_true in Hadj. symmetry. apply Hadj.
  - intros Hlen i b Hb. destruct Hm as [_ Hall].
    destruct (Hall i b Hb) as (Hi & _).
    apply lookup_lt_Some in Hb.
    rewrite Hi. apply wrap_int_small. unfold min_int, max_int. lia.
Qed.

Lemma mining_keeps_chain_sealed_witness :
  indices_from_zero (run_ops (map add_op [mkAdd 16 ts1 "payload" 1]) (NewBlockchain ts0)).
Proof.
  apply (mining_keeps_chain_sealed ts0 [mkAdd 16 ts1 "payload" 1]).
  change (run_ops (map add_op [mkAdd 16 ts1 "payload" 1]) (NewBlockchain ts0))
    with (fst (AddBlock 16 ts1 [genesis0] "payload" 1)).
  rewrite (AddBlock_appends 16 ts1 [genesis0] "payload" 1 genesis0 mined1
             eq_refl mined1_generated).
  vm_compute. discriminate.
Defined.

(** ** Ranging over a map *)

Lemma ranges_length {V : Type} (m : gmap string V) (visit : list (string * V)) :
  ranges m visit -> Z.of_nat (length visit) = len m.
Proof.
  unfold ranges, len. intros Hp. rewrite Hp, length_map_to_list. reflexivity.
Qed.

Lemma ranges_lookup {V : Type} (m : gmap string V) (visit : list (string * V))
    (k : string) (v : V) :
  ranges m visit -> ((k, v) ∈ visit <-> m !! k = Some v).
Proof.
  unfold ranges. intros Hp. rewrite Hp. apply elem_of_map_to_list.
Qed.

Lemma ranges_NoDup_keys {V : Type} (m : gmap string V) (visit : list (string * V)) :
  ranges m visit -> NoDup (map fst visit).
Proof.
  unfold ranges. intros Hp.
  change (NoDup (visit.*1)). rewrite Hp. apply NoDup_fst_map_to_list.
Qed.

Lemma ranges_lookup_pair {V : Type} (m : gmap string V) (visit : list (string * V))
    (k : string) (v : V) :
  ranges m visit -> (k, v) ∈ visit -> m !! k = Some v.
Proof. intros Hr. apply ranges_lookup, Hr. Qed.

(** ** The transaction pool *)
Module TxPoolProofs.
Import TxPool.

Lemma len_nonneg {V : Type} (m : gmap string V) : 0 <= len m.
Proof. unfold len. lia. Qed.

Lemma len_delete_le {V : Type} (m : gmap string V) (id : string) :
  len m - 1 <= len (delete id m) <= len m.
Proof.
  unfold len. rewrite map_size_delete. destruct (m !! id); simpl; lia.
Qed.

Lemma delete_all_lookup {V : Type} (ids : list string) :
  forall (m : gmap string V) (id : string),
    fold_left (fun m id => delete id m) ids m !! id
    = if decide (id ∈ ids) then None else m !! id.
Proof.
  induction ids as [|x ids IH]; intros m id; cbn [fold_left].
  - rewrite decide_False by apply not_elem_of_nil. reflexivity.
  - rewrite IH. destruct (decide (id ∈ ids)) as [Hin|Hout].
    + rewrite decide_True by (right; exact Hin). reflexivity.
    + destruct (decide (x = id)) as [->|Hne].
      * rewrite decide_True by left. apply lookup_delete_eq.
      * rewrite decide_False by (intros [?|?]%elem_of_cons; congruence).
        apply lookup_delete_ne. exact Hne.
Qed.

Lemma delete_all_len {V : Type} (ids : list string) :
  forall m : gmap string V,
    len m - Z.of_nat (length ids) <= len (fold_left (fun m id => delete id m) ids m) <= len m.
Proof.
  induction ids as [|x ids IH]; intros m; simpl; [lia|].
  specialize (IH (delete x m)). pose proof (len_delete_le m x). lia.
Qed.

Lemma pool_step_capacity (tp : TransactionPool) (op : pool_op) :
  0 <= maxPoolSize tp -> Count tp <= maxPoolSize tp ->
  maxPoolSize (pool_step tp op) = maxPoolSize tp /\
  Count (pool_step tp op) <= maxPoolSize tp.
Proof.
  intros Hmax Hcap. unfold Count in *.
  destruct op as [tx|txID|txIDs|]; simpl.
  - unfold AddTransaction.
    destruct (Z.leb_spec (maxPoolSize tp) (len (pendingTransactions tp))) as [Hfull|Hroom];
      simpl; [auto|].
    destruct tx as [tx|]; simpl; [|auto].
    destruct (pendingTransactions tp !! ID tx) eqn:Hl; simpl; [auto|].
    split; [reflexivity|]. unfold len in *.
    rewrite map_size_insert_None by exact Hl. lia.
  - unfold RemoveTransaction.
    destruct (pendingTransactions tp !! txID); simpl; [|auto].
    split; [reflexivity|]. pose proof (len_delete_le (pendingTransactions tp) txID). lia.
  - split; [reflexivity|].
    pose proof (delete_all_len txIDs (pendingTransactions tp)). lia.
  - split; [reflexivity|]. unfold len. rewrite map_size_empty. lia.
Qed.

(** X8. A pool made by [NewTransactionPool n] has capacity [n], or 1000 when
    [n] is not positive, and whatever is then added to or removed from it,
    it never holds more transactions than that capacity. *)
Theorem pool_never_exceeds_capacity (n : Z) (ops : list pool_op) :
  maxPoolSize (pool_run ops (NewTransactionPool n)) = (if n <=? 0 then 1000 else n) /\
  0 <= Count (pool_run ops (NewTransactionPool n))
    <= maxPoolSize (pool_run ops (NewTransactionPool n)).
Proof.
  assert (Hinv : forall ops tp,
            0 <= maxPoolSize tp -> Count tp <= maxPoolSize tp ->
            maxPoolSize (pool_run ops tp) = maxPoolSize tp /\
            Count (pool_run ops tp) <= maxPoolSize tp).
  { clear. induction ops as [|op ops IH]; intros tp Hmax Hcap; simpl; [auto|].
    destruct (pool_step_capacity tp op Hmax Hcap) as [Hm Hc].
    destruct (IH (pool_step tp op)) as [Hm' Hc']; [lia | lia |].
    split; [congruence | lia]. }
  destruct (Hinv ops (NewTransactionPool n)) as [Hm Hc].
  - simpl. destruct (Z.leb_spec n 0); lia.
  - unfold Count, len. simpl. rewrite map_size_empty.
    destruct (Z.leb_spec n 0); lia.
  - split; [exact Hm|]. split; [apply len_nonneg | lia].
Qed.

(** X9. [AddTransaction] with a transaction [tx]. It succeeds exactly when
    the pool is below capacity and holds nothing under [tx]'s ID; then [tx]
    can be read back under its ID, the count is one more and every other ID
    reads as before. In every other case the pool is unchanged. A full pool
    answers "transaction pool is full" even when the ID is already there. *)
Theorem AddTransaction_spec (tp : TransactionPool) (tx : Transaction) :
  (snd (AddTransaction tp (Some tx)) = Ok None <->
     Count tp < maxPoolSize tp /\ pendingTransactions tp !! ID tx = None) /\
  (snd (AddTransaction tp (Some tx)) = Ok None ->
     GetTransaction (fst (AddTransaction tp (Some tx))) (ID tx) = Return tx /\
     Count (fst (AddTransaction tp (Some tx))) = Count tp + 1 /\
     forall txID : string, txID <> ID tx ->
       GetTransaction (fst (AddTransaction tp (Some tx))) txID = GetTransaction tp txID) /\
  (snd (AddTransaction tp (Some tx)) <> Ok None ->
     fst (AddTransaction tp (Some tx)) = tp) /\
  (maxPoolSize tp <= Count tp ->
     AddTransaction tp (Some tx) = (tp, Ok (Some "transaction pool is full"))).
Proof.
  unfold AddTransaction, Count.
  destruct (Z.leb_spec (maxPoolSize tp) (len (pendingTransactions tp))) as [Hfull|Hroom];
    simpl.
  { split; [split; [discriminate | lia]|].
    split; [discriminate|]. split; [reflexivity|]. reflexivity. }
  destruct (pendingTransactions tp !! ID tx) as [old|] eqn:Hl; simpl.
  { split; [split; [discriminate | intros [_ ?]; discriminate]|].
    split; [discriminate|]. split; [reflexivity|]. lia. }
  split; [split; [intros _; split; [lia | reflexivity] | reflexivity]|].
  split; [|split; [congruence | lia]].
  intros _. unfold GetTransaction. simpl. split; [|split].
  - rewrite lookup_insert_eq. reflexivity.
  - unfold len. rewrite map_size_insert_None by exact Hl. lia.
  - intros txID Hne. rewrite lookup_insert_ne by congruence. reflexivity.
Qed.

(** A [nil] transaction panics, unless the pool is full. *)
Lemma AddTransaction_nil (tp : TransactionPool) :
  AddTransaction tp None
  = (tp, if maxPoolSize tp <=? Count tp
         then Ok (Some "transaction pool is full") else Panic).
Proof. unfold AddTransaction, Count. destruct (_ <=? _); reflexivity. Qed.

(** X10. [RemoveTransaction] succeeds exactly when the ID is in the pool;
    then the ID can no longer be read, the count is one less and every
    other ID reads as before. Otherwise it answers "transaction not found
    in pool" and the pool is unchanged. *)
Theorem RemoveTransaction_spec (tp : TransactionPool) (txID : string) :
  (snd (RemoveTransaction tp txID) = None <->
     exists tx, GetTransaction tp txID = Return tx) /\
  (snd (RemoveTransaction tp txID) = None ->
     GetTransaction (fst (RemoveTransaction tp txID)) txID
       = Error "transaction not found in pool" /\
     Count (fst (RemoveTransaction tp txID)) = Count tp - 1 /\
     forall other : string, other <> txID ->
       GetTransaction (fst (RemoveTransaction tp txID)) other = GetTransaction tp other) /\
  (snd (RemoveTransaction tp txID) <> None ->
     RemoveTransaction tp txID = (tp, Some "transaction not found in pool")).
Proof.
  unfold RemoveTransaction, GetTransaction, Count.
  destruct (pendingTransactions tp !! txID) as [tx|] eqn:Hl; simpl.
  - split; [split; [eauto | reflexivity]|]. split; [|congruence].
    intros _. split; [|split].
    + rewrite lookup_delete_eq. reflexivity.
    + unfold len. rewrite map_size_delete_Some by eauto.
      assert (size (pendingTransactions tp) <> 0%nat)
        by (apply map_size_ne_0_lookup; eauto).
      lia.
    + intros other Hne. rewrite lookup_delete_ne by congruence. reflexivity.
  - split; [split; [discriminate | intros [tx ?]; discriminate]|].
    split; [discriminate | reflexivity].
Qed.

(** X11. Adding a transaction and then removing it by its ID gives back
    the pool exactly as it was. *)
Theorem AddTransaction_RemoveTransaction (tp : TransactionPool) (tx : Transaction) :
  snd (AddTransaction tp (Some tx)) = Ok None ->
  RemoveTransaction (fst (AddTransaction tp (Some tx))) (ID tx) = (tp, None).
Proof.
  unfold AddTransaction.
  destruct (_ <=? _); simpl; [discriminate|].
  destruct (pendingTransactions tp !! ID tx) eqn:Hl; simpl; [discriminate|].
  intros _. unfold RemoveTransaction. simpl. rewrite lookup_insert_eq.
  rewrite delete_insert_eq, delete_id by exact Hl.
  destruct tp; reflexivity.
Qed.

Lemma batch_loop_take (maxCount : Z) (visit : list (string * Transaction)) :
  forall count : Z,
    batch_loop visit count maxCount
    = map snd (take (Z.to_nat (maxCount - count)) visit).
Proof.
  induction visit as [|[k tx] visit IH]; intros count; simpl.
  - rewrite take_nil. reflexivity.
  - destruct (Z.leb_spec maxCount count) as [Hle|Hgt].
    + replace (Z.to_nat (maxCount - count)) with O by lia. reflexivity.
    + replace (Z.to_nat (maxCount - count))
        with (S (Z.to_nat (maxCount - (count + 1)))) by lia.
      simpl. f_equal. apply IH.
Qed.

Lemma AddTransaction_RemoveTransaction_witness :
  RemoveTransaction (fst (AddTransaction (NewTransactionPool 0) (Some tx_a))) (ID tx_a)
  = (NewTransactionPool 0, None).
Proof.
  exact (AddTransaction_RemoveTransaction (NewTransactionPool 0) tx_a eq_refl).
Defined.

(** What [GetBatch] does once [make] has returned. *)
Lemma GetBatch_Ok (tp : TransactionPool) (visit : list (string * Transaction))
    (maxCount : Z) (batch : list Transaction) :
  GetBatch tp visit maxCount = Ok batch <->
  0 <= maxCount /\ 8 * maxCount <= max_alloc /\
  batch = map snd (take (Z.to_nat maxCount) visit).
Proof.
  unfold GetBatch. rewrite batch_loop_take, Z.sub_0_r.
  destruct (Z.ltb_spec maxCount 0) as [Hneg|Hpos]; simpl;
    [split; [discriminate | lia]|].
  destruct (Z.ltb_spec max_alloc (8 * maxCount)) as [Hbig|Hfit];
    [split; [discriminate | lia]|].
  split.
  - intros [= <-]. auto.
  - intros (_ & _ & ->). reflexivity.
Qed.

(** A capacity that is negative, or whose pointers are more than can be
    allocated, panics in [make]. *)
Lemma GetBatch_panics (tp : TransactionPool) (visit : list (string * Transaction))
    (maxCount : Z) :
  maxCount < 0 \/ max_alloc < 8 * maxCount -> GetBatch tp visit maxCount = Panic.
Proof.
  intros Hn. unfold GetBatch.
  destruct (Z.ltb_spec maxCount 0) as [|Hpos]; [reflexivity|].
  destruct (Z.ltb_spec max_alloc (8 * maxCount)); [reflexivity | lia].
Qed.

(** X12. [GetBatch] takes the first [maxCount] transactions the map
    iteration visits, all of them if the pool holds fewer: whatever it
    returns has min(maxCount, Count) transactions, each one pending in the
    pool. Asked for no more transactions than the pool holds, it does
    return, with exactly [maxCount] of them. It panics in [make] when
    [maxCount] is negative or more than can be allocated. *)
Theorem GetBatch_spec (tp : TransactionPool) (visit : list (string * Transaction))
    (maxCount : Z) :
  ranges (pendingTransactions tp) visit ->
  (forall batch : list Transaction,
     GetBatch tp visit maxCount = Ok batch ->
     batch = map snd (take (Z.to_nat maxCount) visit) /\
     Z.of_nat (length batch) = Z.min maxCount (Count tp) /\
     forall tx : Transaction, tx ∈ batch ->
       exists k : string, pendingTransactions tp !! k = Some tx) /\
  (0 <= maxCount <= Count tp -> 8 * maxCount <= max_alloc ->
     exists batch : list Transaction,
       GetBatch tp visit maxCount = Ok batch /\ Z.of_nat (length batch) = maxCount) /\
  (maxCount < 0 \/ max_alloc < 8 * maxCount -> GetBatch tp visit maxCount = Panic).
Proof.
  intros Hr.
  assert (Hlen : 0 <= maxCount ->
            Z.of_nat (length (map snd (take (Z.to_nat maxCount) visit)))
            = Z.min maxCount (Count tp)).
  { intros Hn. rewrite length_map, length_take. unfold Count.
    rewrite <- (ranges_length _ _ Hr). lia. }
  split; [|split].
  - intros batch Hg. apply GetBatch_Ok in Hg as (Hn & _ & ->).
    split; [reflexivity|]. split; [apply Hlen, Hn|].
    intros tx Htx. apply list_elem_of_fmap in Htx as ([k tx'] & -> & Hin).
    apply elem_of_take in Hin as (i & Hi & _).
    exists k. apply (ranges_lookup _ _ k tx' Hr).
    eapply list_elem_of_lookup_2. exact Hi.
  - intros Hn Hfit. exists (map snd (take (Z.to_nat maxCount) visit)). split.
    + apply GetBatch_Ok. split; [lia|]. split; [exact Hfit | reflexivity].
    + rewrite Hlen by lia. lia.
  - apply GetBatch_panics.
Qed.

Lemma GetBatch_spec_witness :
  (exists batch : list Transaction,
     GetBatch pool_ab (map_to_list (pendingTransactions pool_ab)) 1 = Ok batch /\
     Z.of_nat (length batch) = 1) /\
  GetBatch pool_ab (map_to_list (pendingTransactions pool_ab)) (2 ^ 60) = Panic.
Proof.
  destruct (GetBatch_spec pool_ab (map_to_list (pendingTransactions pool_ab)) 1
              (Permutation_refl _)) as (_ & Hret & _).
  destruct (GetBatch_spec pool_ab (map_to_list (pendingTransactions pool_ab)) (2 ^ 60)
              (Permutation_refl _)) as (_ & _ & Hp).
  split.
  - apply Hret; [|vm_compute; discriminate]. split; [lia|]. vm_compute. discriminate.
  - apply Hp. right. reflexivity.
Defined.

(** X13. [RemoveBatch] removes exactly the listed IDs and says nothing about
    IDs that were not in the pool: afterwards a listed ID cannot be read,
    every other ID reads as before, the capacity is the same and the count
    has gone down by at most the length of the list. *)
Theorem RemoveBatch_spec (tp : TransactionPool) (txIDs : list string) :
  (forall txID : string,
     GetTransaction (RemoveBatch tp txIDs) txID
     = if decide (txID ∈ txIDs)
       then Error "transaction not found in pool"
       else GetTransaction tp txID) /\
  maxPoolSize (RemoveBatch tp txIDs) = maxPoolSize tp /\
  Count tp - Z.of_nat (length txIDs) <= Count (RemoveBatch tp txIDs) <= Count tp.
Proof.
  split; [|split; [reflexivity|]].
  - intros txID. unfold GetTransaction, RemoveBatch. simpl.
    rewrite delete_all_lookup. destruct (decide (txID ∈ txIDs)); reflexivity.
  - unfold Count, RemoveBatch. simpl. apply delete_all_len.
Qed.

Lemma delete_all_present {V : Type} (ids : list string) :
  forall m : gmap string V,
    NoDup ids -> (forall id, id ∈ ids -> is_Some (m !! id)) ->
    len (fold_left (fun m id => delete id m) ids m) = len m - Z.of_nat (length ids).
Proof.
  induction ids as [|x ids IH]; intros m Hnd Hin; cbn [fold_left length]; [lia|].
  apply NoDup_cons in Hnd as [Hx Hnd].
  rewrite IH.
  - unfold len. rewrite map_size_delete_Some by (apply Hin; left).
    assert (size m <> 0%nat).
    { destruct (Hin x ltac:(left)) as [v Hv]. apply map_size_ne_0_lookup. eauto. }
    lia.
  - exact Hnd.
  - intros id Hid. rewrite lookup_delete_ne by (intros ->; contradiction).
    apply Hin. right. exact Hid.
Qed.

Lemma pool_step_keyed (tp : TransactionPool) (op : pool_op) :
  keyed_by_ID tp -> keyed_by_ID (pool_step tp op).
Proof.
  intros Hk k tx. destruct op as [new|txID|txIDs|]; simpl.
  - unfold AddTransaction. destruct (_ <=? _); simpl; [apply Hk|].
    destruct new as [new|]; simpl; [|apply Hk].
    destruct (pendingTransactions tp !! ID new); simpl; [apply Hk|].
    destruct (decide (ID new = k)) as [<-|Hne].
    + rewrite lookup_insert_eq. congruence.
    + rewrite lookup_insert_ne by exact Hne. apply Hk.
  - unfold RemoveTransaction. destruct (pendingTransactions tp !! txID); simpl; [|apply Hk].
    destruct (decide (txID = k)) as [<-|Hne].
    + rewrite lookup_delete_eq. discriminate.
    + rewrite lookup_delete_ne by exact Hne. apply Hk.
  - rewrite delete_all_lookup. destruct (decide (k ∈ txIDs)); [discriminate | apply Hk].
  - rewrite lookup_empty. discriminate.
Qed.

Lemma pool_run_keyed (ops : list pool_op) :
  forall tp : TransactionPool, keyed_by_ID tp -> keyed_by_ID (pool_run ops tp).
Proof.
  induction ops as [|op ops IH]; intros tp Hk; simpl; [exact Hk|].
  apply IH, pool_step_keyed, Hk.
Qed.

(** X14. Taking a batch for a block and then removing it: on a pool built
    by the pool's own operations, [RemoveBatch] of the IDs of a batch that
    [GetBatch] returned removes exactly that batch. The count goes down by
    the size of the batch, no transaction of the batch can be read any
    more, and every other ID reads as before. *)
Theorem GetBatch_RemoveBatch (n : Z) (ops : list pool_op)
    (visit : list (string * Transaction)) (maxCount : Z) (batch : list Transaction) :
  ranges (pendingTransactions (pool_run ops (NewTransactionPool n))) visit ->
  GetBatch (pool_run ops (NewTransactionPool n)) visit maxCount = Ok batch ->
  Count (RemoveBatch (pool_run ops (NewTransactionPool n)) (map ID batch))
    = Count (pool_run ops (NewTransactionPool n)) - Z.of_nat (length batch) /\
  (forall tx : Transaction, tx ∈ batch ->
     GetTransaction (RemoveBatch (pool_run ops (NewTransactionPool n)) (map ID batch)) (ID tx)
     = Error "transaction not found in pool") /\
  (forall txID : string, txID ∉ map ID batch ->
     GetTransaction (RemoveBatch (pool_run ops (NewTransactionPool n)) (map ID batch)) txID
     = GetTransaction (pool_run ops (NewTransactionPool n)) txID).
Proof.
  set (tp := pool_run ops (NewTransactionPool n)). intros Hr Hg.
  assert (Hk : keyed_by_ID tp).
  { apply pool_run_keyed. intros k tx Hl. simpl in Hl.
    rewrite lookup_empty in Hl. discriminate. }
  apply GetBatch_Ok in Hg as (_ & _ & ->).
  set (n' := Z.to_nat maxCount).
  assert (Hids : map ID (map snd (take n' visit)) = map fst (take n' visit)).
  { rewrite map_map. apply map_ext_in. intros [k tx] Hin. simpl.
    apply Hk. apply (ranges_lookup _ _ k tx Hr).
    apply list_elem_of_In in Hin. apply elem_of_take in Hin as (i & Hi & _).
    eapply list_elem_of_lookup_2. exact Hi. }
  assert (Hget : forall txID : string,
            GetTransaction (RemoveBatch tp (map ID (map snd (take n' visit)))) txID
            = if decide (txID ∈ map ID (map snd (take n' visit)))
              then Error "transaction not found in pool"
              else GetTransaction tp txID).
  { intros txID. unfold GetTransaction, RemoveBatch. simpl.
    rewrite delete_all_lookup. destruct (decide _); reflexivity. }
  split; [|split].
  - unfold Count, RemoveBatch. simpl. rewrite Hids, delete_all_present.
    + rewrite !length_map. reflexivity.
    + pose proof (ranges_NoDup_keys _ _ Hr) as Hnd.
      rewrite <- (take_drop n' visit), map_app in Hnd.
      apply NoDup_app in Hnd as [Hnd _]. exact Hnd.
    + intros id Hid. apply list_elem_of_fmap in Hid as ([k tx] & -> & Hin). simpl.
      exists tx. apply (ranges_lookup _ _ k tx Hr).
      apply elem_of_take in Hin as (i & Hi & _).
      eapply list_elem_of_lookup_2. exact Hi.
  - intros tx Htx. rewrite Hget. rewrite decide_True; [reflexivity|].
    apply list_elem_of_fmap. exists tx. split; [reflexivity | exact Htx].
  - intros txID Hout. rewrite Hget. rewrite decide_False by exact Hout. reflexivity.
Qed.

Lemma GetBatch_RemoveBatch_witness :
  exists batch : list Transaction,
    GetBatch pool_ab (map_to_list (pendingTransactions pool_ab)) 1 = Ok batch /\
    Count (RemoveBatch pool_ab (map ID batch)) = Count pool_ab - Z.of_nat (length batch).
Proof.
  destruct (GetBatch pool_ab (map_to_list (pendingTransactions pool_ab)) 1)
    as [batch| |] eqn:Hg; [|discriminate Hg ..].
  exists batch. split; [reflexivity|].
  exact (proj1 (GetBatch_RemoveBatch 0 [PoolAdd (Some tx_a); PoolAdd (Some tx_b)]
                  (map_to_list (pendingTransactions pool_ab)) 1 batch
                  (Permutation_refl _) Hg)).
Defined.

End TxPoolProofs.

(** ** Choosing a validator *)

Lemma stake_sum_perm (l l' : list (string * Z)) :
  l ≡ₚ l' -> stake_sum l = stake_sum l'.
Proof.
  induction 1 as [|x l l' _ IH|x y l|l l' l'' _ IH1 _ IH2]; simpl; lia.
Qed.

Lemma stake_sum_nonneg (l : list (string * Z)) :
  Forall (fun e => 0 <= snd e) l -> 0 <= stake_sum l.
Proof. induction 1 as [|e l He _ IH]; simpl; lia. Qed.

Lemma total_stake_sum (visit : list (string * Z)) :
  forall acc : Z,
    Forall (fun e => 0 <= snd e) visit -> 0 <= acc ->
    acc + stake_sum visit <= max_int ->
    fold_left (fun totalStake e => wrap_int (totalStake + snd e)) visit acc
    = acc + stake_sum visit.
Proof.
  induction visit as [|e visit IH]; intros acc Hpos Hacc Hmax; simpl in *; [lia|].
  apply Forall_cons in Hpos as [He Hpos].
  pose proof (stake_sum_nonneg visit Hpos) as Hs.
  rewrite wrap_int_small by (unfold min_int, max_int in *; lia).
  rewrite IH by (assumption || lia). lia.
Qed.

Lemma select_loop_picks (visit : list (string * Z)) (selection : Z) :
  forall currentPosition : Z,
    Forall (fun e => 0 <= snd e) visit ->
    0 <= currentPosition <= selection ->
    selection < currentPosition + stake_sum visit <= max_int ->
    exists stake : Z,
      (select_loop visit selection currentPosition, stake) ∈ visit /\ 0 < stake.
Proof.
  induction visit as [|[address stake] visit IH];
    intros cur Hpos Hcur Hsel; simpl in *; [lia|].
  apply Forall_cons in Hpos as [He Hpos]. simpl in He.
  pose proof (stake_sum_nonneg visit Hpos) as Hs.
  rewrite wrap_int_small by (unfold min_int, max_int in *; lia).
  destruct (Z.ltb_spec selection (cur + stake)) as [Hlt|Hge].
  - exists stake. split; [left | lia].
  - destruct (IH (cur + stake) Hpos ltac:(lia) ltac:(lia)) as (s & Hin & Hs').
    exists s. split; [right; exact Hin | exact Hs'].
Qed.

(** X15. [SelectValidator] when no stake is negative and the stakes add up
    within the [int] range. If they add up to zero (no stakers, or only
    empty stakes) it returns the empty address. Otherwise, whatever the
    random draw and the order of map iteration, it returns a registered
    staker whose stake is positive: a staker with nothing at stake is never
    chosen. *)
Theorem SelectValidator_spec (pos : ProofOfStake) (visit1 visit2 : list (string * Z))
    (r : Z) :
  ranges (Stakers pos) visit1 ->
  ranges (Stakers pos) visit2 ->
  Forall (fun e => 0 <= snd e) visit1 ->
  stake_sum visit1 <= max_int ->
  (stake_sum visit1 = 0 -> SelectValidator pos visit1 visit2 r = Ok "") /\
  (0 < stake_sum visit1 ->
   exists (address : string) (stake : Z),
     SelectValidator pos visit1 visit2 r = Ok address /\
     Stakers pos !! address = Some stake /\ 0 < stake).
Proof.
  intros Hr1 Hr2 Hpos Hmax.
  assert (Htotal : total_stake visit1 = stake_sum visit1).
  { unfold total_stake. rewrite total_stake_sum; [lia | exact Hpos | lia | lia]. }
  assert (Hperm : visit2 ≡ₚ visit1) by (unfold ranges in *; rewrite Hr1, Hr2; reflexivity).
  unfold SelectValidator. rewrite Htotal. split.
  - intros ->. reflexivity.
  - intros Hsum. destruct (Z.eqb_spec (stake_sum visit1) 0) as [?|_]; [lia|].
    unfold Intn. destruct (Z.leb_spec (stake_sum visit1) 0) as [?|_]; [lia|].
    pose proof (Z.mod_pos_bound r (stake_sum visit1) Hsum) as Hsel.
    destruct (select_loop_picks visit2 (r mod stake_sum visit1) 0) as (stake & Hin & Hs).
    + rewrite Hperm. exact Hpos.
    + lia.
    + rewrite (stake_sum_perm _ _ Hperm). lia.
    + eexists _, stake. split; [reflexivity|]. split; [|exact Hs].
      apply (ranges_lookup_pair _ _ _ _ Hr2). exact Hin.
Qed.

Lemma SelectValidator_spec_witness :
  exists (address : string) (stake : Z),
    SelectValidator stakers0 (map_to_list (Stakers stakers0))
                    (map_to_list (Stakers stakers0)) 7 = Ok address /\
    Stakers stakers0 !! address = Some stake /\ 0 < stake.
Proof.
  assert (Hpos : Forall (fun e : string * Z => 0 <= snd e) (map_to_list (Stakers stakers0)))
    by (apply Forall_forall; intros [a s] Hin; apply elem_of_map_to_list in Hin;
        unfold stakers0, AddStaker, NewProofOfStake in Hin; simpl in Hin;
        apply lookup_insert_Some in Hin as [[_ <-]|[_ Hin]]; [simpl; lia|];
        apply lookup_insert_Some in Hin as [[_ <-]|[_ Hin]]; [simpl; lia|];
        rewrite lookup_empty in Hin; discriminate).
  assert (Hsum : stake_sum (map_to_list (Stakers stakers0)) = 3)
    by (vm_compute; reflexivity).
  apply (SelectValidator_spec stakers0 _ _ 7 (Permutation_refl _) (Permutation_refl _) Hpos).
  - rewrite Hsum. unfold max_int. lia.
  - rewrite Hsum. lia.
Defined.

(** With a stake below zero the total can be negative, and then
    [rand.Intn] panics. *)
Example SelectValidator_negative_total :
  SelectValidator (AddStaker (NewProofOfStake 1) "mallory" (-5))
                  [("mallory", -5)] [("mallory", -5)] 7 = Panic.
Proof. reflexivity. Qed.

(** ** Peers *)

Lemma register_new_spec (peerList : list string) (address : string) (clock : nat -> Z) :
  forall (p : P2PServer) (k : nat),
    let wanted := filter (fun a => a ≠ port p ∧ a ≠ address) peerList in
    snd (register_new p address clock k peerList) = wanted /\
    dom (peers (fst (register_new p address clock k peerList)))
      = dom (peers p) ∪ list_to_set wanted /\
    chain (fst (register_new p address clock k peerList)) = chain p /\
    port (fst (register_new p address clock k peerList)) = port p /\
    knownBlocks (fst (register_new p address clock k peerList)) = knownBlocks p.
Proof.
  induction peerList as [|newPeer rest IH]; intros p k; simpl.
  - split; [reflexivity|]. split; [set_solver | auto].
  - destruct (String.eqb_spec newPeer (port p)) as [Hp|Hp]; simpl.
    { rewrite filter_cons_False by tauto. apply IH. }
    destruct (String.eqb_spec newPeer address) as [Ha|Ha]; simpl.
    { rewrite filter_cons_False by tauto. apply IH. }
    rewrite filter_cons_True by tauto.
    specialize (IH (AddPeer p newPeer (clock k)) (S k)).
    destruct (register_new (AddPeer p newPeer (clock k)) address clock (S k) rest)
      as [p' calls].
    simpl in *. destruct IH as (Hcalls & Hdom & Hc & Hport & Hkb).
    split; [f_equal; exact Hcalls|]. split; [|auto].
    rewrite Hdom, dom_insert_L. set_solver.
Qed.

(** X16. One peer's answer in a discovery round. Every address it lists,
    other than this node's own and the answering peer's, is put in the
    registry and is sent a registration, whether or not it was known
    already, in the order listed; nothing else is registered, and neither
    the chain nor the known-block set is touched. A failed request changes
    nothing. *)
Theorem discoverFrom_spec (p : P2PServer) (address : string) (clock : nat -> Z) :
  discoverFrom p address None clock = (p, []) /\
  forall peerList : list string,
    let wanted := filter (fun a => a ≠ port p ∧ a ≠ address) peerList in
    snd (discoverFrom p address (Some peerList) clock) = wanted /\
    dom (peers (fst (discoverFrom p address (Some peerList) clock)))
      = dom (peers p) ∪ list_to_set wanted /\
    chain (fst (discoverFrom p address (Some peerList) clock)) = chain p /\
    port (fst (discoverFrom p address (Some peerList) clock)) = port p /\
    knownBlocks (fst (discoverFrom p address (Some peerList) clock)) = knownBlocks p.
Proof.
  split; [reflexivity|]. intros peerList. apply register_new_spec.
Qed.

(** X17. Registering a peer and listing the peers. A body that does not
    decode, or has no "address" entry, is answered 400 and changes nothing.
    Any other body is answered 200, and [handlePeers] then lists the address
    given (even the empty one, even this node's own) together with every
    peer registered before, and nothing else. *)
Theorem handleRegisterPeer_spec (p : P2PServer) (now : Z) :
  handleRegisterPeer p None now = (p, StatusBadRequest) /\
  (forall data : gmap string string,
     data !! "address" = None ->
     handleRegisterPeer p (Some data) now = (p, StatusBadRequest)) /\
  (forall (data : gmap string string) (address : string)
          (visit : list (string * Peer)),
     data !! "address" = Some address ->
     ranges (peers (fst (handleRegisterPeer p (Some data) now))) visit ->
     snd (handleRegisterPeer p (Some data) now) = StatusOK /\
     forall a : string,
       a ∈ handlePeers (fst (handleRegisterPeer p (Some data) now)) visit <->
       a = address \/ a ∈ dom (peers p)).
Proof.
  split; [reflexivity|]. split.
  - intros data Hd. unfold handleRegisterPeer. rewrite Hd. reflexivity.
  - intros data address visit Hd. unfold handleRegisterPeer. rewrite Hd. simpl.
    intros Hr. split; [reflexivity|]. intros a. unfold handlePeers.
    rewrite elem_of_dom, list_elem_of_fmap. split.
    + intros ([k v] & -> & Hkv). apply (ranges_lookup _ _ k v Hr) in Hkv. simpl.
      destruct (decide (address = k)) as [->|Hne]; [left; reflexivity|].
      rewrite lookup_insert_ne in Hkv by exact Hne. right. eauto.
    + intros Ha.
      assert (is_Some ((<[address := mkPeer address now]> (peers p)) !! a)) as [v Hv].
      { destruct (decide (address = a)) as [->|Hne].
        - rewrite lookup_insert_eq. eauto.
        - rewrite lookup_insert_ne by exact Hne.
          destruct Ha as [->|Ha]; [congruence | exact Ha]. }
      exists (a, v). split; [reflexivity|].
      apply (ranges_lookup _ _ a v Hr). exact Hv.
Qed.

Lemma handleRegisterPeer_spec_witness :
  snd (handleRegisterPeer node0 (Some {[ "address" := "10.0.0.9:8080" ]}) 5) = StatusOK /\
  "10.0.0.9:8080"
    ∈ handlePeers (AddPeer node0 "10.0.0.9:8080" 5)
                  (map_to_list (peers (AddPeer node0 "10.0.0.9:8080" 5))).
Proof.
  destruct (handleRegisterPeer_spec node0 5) as (_ & _ & Hreg).
  destruct (Hreg {[ "address" := "10.0.0.9:8080" ]} "10.0.0.9:8080"
              (map_to_list (peers (AddPeer node0 "10.0.0.9:8080" 5)))
              (lookup_singleton_eq _ _) (Permutation_refl _)) as [Hs Hl].
  split; [exact Hs|]. apply Hl. left. reflexivity.
Defined.

Lemma step_peers (p : P2PServer) (ev : event) :
  dom (peers p) ⊆ dom (peers (step p ev)) /\ port (step p ev) = port p.
Proof.
  destruct ev as [r|fuel t data d|blocks|address now]; simpl.
  - destruct (handleBroadcastBlock_frame p r) as [-> ->]. split; [reflexivity|reflexivity].
  - split; reflexivity.
  - unfold syncWith. destruct (_ <? _)%nat; split; reflexivity.
  - split; [|reflexivity]. rewrite dom_insert_L. set_solver.
Qed.

Lemma node_step_known (p : P2PServer) (ev : node_event) (h : string) :
  known p h = true -> known (node_step p ev) h = true.
Proof.
  intros Hk. destruct ev as [ev|data now|address reply clock]; simpl.
  - apply step_known, Hk.
  - unfold handleRegisterPeer. destruct data as [data|]; [|exact Hk].
    destruct (data !! "address"); exact Hk.
  - destruct reply as [peerList|]; [|exact Hk]. simpl.
    destruct (register_new_spec peerList address clock p O) as (_ & _ & _ & _ & Hkb).
    unfold known in *. rewrite Hkb. exact Hk.
Qed.

Lemma node_step_peers (p : P2PServer) (ev : node_event) :
  dom (peers p) ⊆ dom (peers (node_step p ev)) /\ port (node_step p ev) = port p.
Proof.
  destruct ev as [ev|data now|address reply clock]; simpl.
  - apply step_peers.
  - unfold handleRegisterPeer. destruct data as [data|]; [|split; reflexivity].
    destruct (data !! "address"); simpl; [|split; reflexivity].
    split; [|reflexivity]. rewrite dom_insert_L. set_solver.
  - destruct reply as [peerList|]; [|split; reflexivity]. simpl.
    destruct (register_new_spec peerList address clock p O) as (_ & Hd & _ & Hp & _).
    split; [|exact Hp]. rewrite Hd. set_solver.
Qed.

(** X18. Nothing a node does (deliveries, mining, reconciliation,
    registration, discovery) ever drops a peer from the registry, forgets a
    block hash it has seen, or changes the node's own address. *)
Theorem node_never_forgets (evs : list node_event) (p : P2PServer) :
  dom (peers p) ⊆ dom (peers (node_run evs p)) /\
  (forall h : string, known p h = true -> known (node_run evs p) h = true) /\
  port (node_run evs p) = port p.
Proof.
  revert p. induction evs as [|ev evs IH]; intros p; simpl.
  - split; [reflexivity|]. split; [auto | reflexivity].
  - destruct (IH (node_step p ev)) as (Hd & Hk & Hp).
    destruct (node_step_peers p ev) as [Hd' Hp'].
    split; [etransitivity; eassumption|]. split; [|congruence].
    intros h Hh. apply Hk, node_step_known, Hh.
Qed.

(** ** Gossip and reconciliation on a sound chain *)

Lemma chain_valid_snoc (bc : list Block) (tip block : Block) :
  last bc = Some tip -> IsBlockValid block tip = true ->
  chain_valid (bc ++ [block]) = chain_valid bc.
Proof.
  intros Htip Hv.
  destruct (chain_valid bc) eqn:Hc.
  - apply chain_valid_spec. apply chain_valid_spec in Hc.
    eapply adjacent_valid_snoc; eauto.
  - destruct (chain_valid (bc ++ [block])) eqn:Hc'; [|reflexivity].
    apply chain_valid_spec in Hc'.
    assert (adjacent_valid bc) as Hadj.
    { intros i cur prev Hcur Hprev. apply (Hc' i cur prev).
      - rewrite lookup_app_l; [exact Hcur | eapply lookup_lt_Some; eauto].
      - rewrite lookup_app_l; [exact Hprev | eapply lookup_lt_Some; eauto]. }
    apply chain_valid_spec in Hadj. congruence.
Qed.

(** X19. A block seen for the first time that passes [IsBlockValid]
    against the tip. The handler answers 200 and forwards it to every
    registered peer except the address it takes for the sender. The block is
    appended, once, exactly when every adjacent pair of the chain already
    held is valid; on a chain with a broken link the block is forwarded all
    the same but the chain stays as it was. *)
Theorem handleBroadcastBlock_fresh_valid (p : P2PServer) (r : Request) (block tip : Block) :
  body r = Some block ->
  known p (Hash block) = false ->
  GetLatestBlock (chain p) = Ok tip ->
  IsBlockValid block tip = true ->
  chain (fst (handleBroadcastBlock p r))
    = (if chain_valid (chain p) then chain p ++ [block] else chain p) /\
  status (snd (handleBroadcastBlock p r)) = StatusOK /\
  (forall a : string,
     a ∈ forwarded (snd (handleBroadcastBlock p r)) <->
     a ∈ dom (peers p) /\ a <> sender r) /\
  NoDup (forwarded (snd (handleBroadcastBlock p r))).
Proof.
  intros Hb Hk Htip Hv. unfold handleBroadcastBlock.
  rewrite Hb, Hk. simpl. rewrite Htip, Hv. simpl.
  split; [|split; [reflexivity|split]].
  - rewrite ReplaceChain_cases. unfold GetBlocks.
    apply GetLatestBlock_Ok in Htip.
    rewrite (chain_valid_snoc _ _ _ Htip Hv).
    destruct (chain_valid (chain p)).
    + rewrite decide_True; [reflexivity|]. rewrite length_app. simpl. split; [lia|reflexivity].
    + rewrite decide_False; [reflexivity|]. intros [_ ?]. discriminate.
  - intros a. fold (sender r). rewrite list_elem_of_filter, elem_of_dom. split.
    + intros [Hne Hin]. apply list_elem_of_fmap in Hin as ([k v] & -> & Hin).
      apply elem_of_map_to_list in Hin. split; [exists v; exact Hin | exact Hne].
    + intros [[v Hin] Hne]. split; [exact Hne|].
      apply list_elem_of_fmap. exists (a, v). split; [reflexivity|].
      apply elem_of_map_to_list. exact Hin.
  - apply NoDup_filter. apply NoDup_fst_map_to_list.
Qed.

Lemma handleBroadcastBlock_fresh_valid_witness :
  chain (fst (handleBroadcastBlock node0 (deliver mined1)))
  = (if chain_valid (chain node0) then chain node0 ++ [mined1] else chain node0).
Proof.
  exact (proj1 (handleBroadcastBlock_fresh_valid node0 (deliver mined1) mined1 genesis0
                  eq_refl eq_refl eq_refl mined1_valid)).
Defined.

(** X20. A delivery forwards nothing unless the block is new to the node
    and valid against its tip: a malformed body, a hash seen before and a
    block that does not fit the tip are never passed on. *)
Theorem handleBroadcastBlock_forwards_only_valid (p : P2PServer) (r : Request) :
  forwarded (snd (handleBroadcastBlock p r)) <> [] ->
  exists block tip : Block,
    body r = Some block /\ known p (Hash block) = false /\
    GetLatestBlock (chain p) = Ok tip /\ IsBlockValid block tip = true.
Proof.
  unfold handleBroadcastBlock. destruct (body r) as [block|]; [|simpl; congruence].
  destruct (known p (Hash block)) eqn:Hk; [simpl; congruence|]. simpl.
  destruct (GetLatestBlock (chain p)) as [tip| |] eqn:Htip; simpl; try congruence.
  destruct (IsBlockValid block tip) eqn:Hv; simpl; [|congruence].
  intros _. exists block, tip. auto.
Qed.

Lemma handleBroadcastBlock_forwards_only_valid_witness :
  exists block tip : Block,
    body (deliver mined1) = Some block /\
    known (AddPeer node0 "10.0.0.9:8080" 5) (Hash block) = false /\
    GetLatestBlock (chain (AddPeer node0 "10.0.0.9:8080" 5)) = Ok tip /\
    IsBlockValid block tip = true.
Proof.
  apply (handleBroadcastBlock_forwards_only_valid
           (AddPeer node0 "10.0.0.9:8080" 5) (deliver mined1)).
  vm_compute. discriminate.
Defined.

Lemma syncWith_chain (p : P2PServer) (blocks : list Block) :
  chain (syncWith p blocks) = fst (ReplaceChain (chain p) blocks).
Proof.
  unfold syncWith, GetBlocks. rewrite ReplaceChain_cases.
  destruct (Nat.ltb_spec (length (chain p)) (length blocks)) as [Hlt|Hge]; simpl.
  - reflexivity.
  - rewrite decide_False by lia. reflexivity.
Qed.

Lemma syncWith_step (p : P2PServer) (blocks : list Block) :
  (length (chain p) <= length (chain (syncWith p blocks)))%nat /\
  (adjacent_valid blocks -> (length blocks <= length (chain (syncWith p blocks)))%nat) /\
  (chain (syncWith p blocks) = chain p \/ chain (syncWith p blocks) = blocks) /\
  (adjacent_valid (chain p) -> adjacent_valid (chain (syncWith p blocks))).
Proof.
  rewrite syncWith_chain, ReplaceChain_cases.
  destruct (decide _) as [[Hl Hv]|Hn]; simpl.
  - split; [lia|]. split; [lia|]. split; [right; reflexivity|].
    intros _. apply chain_valid_spec, Hv.
  - split; [lia|]. split; [|split; [left; reflexivity | auto]].
    intros Hadj. apply chain_valid_spec in Hadj.
    destruct (decide (length (chain p) < length blocks)%nat); [|lia].
    exfalso. apply Hn. auto.
Qed.

(** X21. A reconciliation round over the chains [chains] that the peers
    answered with, taken in any order. The node ends with a chain at least
    as long as every answer whose adjacent pairs are all valid, and never
    shorter than the one it had; that chain is either the one it had or one
    of the answers, and if the one it had was sound so is the one it ends
    with. The outer length test of [syncBlockchain] changes nothing:
    each answer is treated exactly as [ReplaceChain] treats it. *)
Theorem reconciliation_adopts_longest (chains : list (list Block)) (p : P2PServer) :
  (forall c : list Block, c ∈ chains -> adjacent_valid c ->
     (length c <= length (chain (fold_left syncWith chains p)))%nat) /\
  (length (chain p) <= length (chain (fold_left syncWith chains p)))%nat /\
  (chain (fold_left syncWith chains p) = chain p \/
   chain (fold_left syncWith chains p) ∈ chains) /\
  (adjacent_valid (chain p) -> adjacent_valid (chain (fold_left syncWith chains p))) /\
  (forall blocks : list Block,
     chain (syncWith p blocks) = fst (ReplaceChain (chain p) blocks)).
Proof.
  split; [|split; [|split; [|split; [|apply syncWith_chain]]]];
    revert p; induction chains as [|blocks chains IH]; intros p; simpl.
  - intros c Hc. apply elem_of_nil in Hc. contradiction.
  - intros c Hc Hadj. apply elem_of_cons in Hc as [->|Hc].
    + destruct (syncWith_step p blocks) as (_ & Hb & _).
      etransitivity; [exact (Hb Hadj)|]. clear -chains.
      generalize (syncWith p blocks). clear. revert chains.
      induction chains as [|b chains IH]; intros q; simpl; [lia|].
      etransitivity; [|apply IH]. apply syncWith_step.
    + apply IH; assumption.
  - lia.
  - etransitivity; [|apply IH]. apply syncWith_step.
  - left. reflexivity.
  - destruct (IH (syncWith p blocks)) as [Heq|Hin].
    + rewrite Heq. destruct (syncWith_step p blocks) as (_ & _ & [->| ->] & _).
      * left. reflexivity.
      * right. left.
    + right. right. exact Hin.
  - auto.
  - intros Hadj. apply IH. apply syncWith_step, Hadj.
Qed.

Lemma reconciliation_adopts_longest_witness :
  (length forged <= length (chain (fold_left syncWith [[genesis0]; forged] node0)))%nat.
Proof.
  apply (proj1 (reconciliation_adopts_longest [[genesis0]; forged] node0) forged).
  - right. left.
  - exact forged_valid.
Defined.

(** ** The write endpoint *)

Lemma mine_no_panic (fuel : nat) :
  forall (i : Z) (newBlock : Block),
    0 <= Difficulty newBlock <= max_alloc -> mine fuel i newBlock <> Panic.
Proof.
  induction fuel as [|fuel IH]; intros i newBlock Hd; simpl; [discriminate|].
  rewrite IsHashValid_spec by exact Hd.
  destruct (bool_decide _); [discriminate|]. apply IH. simpl. exact Hd.
Qed.

Lemma main_difficulty_positive (env : string) (atoi : option Z) :
  1 <= main_difficulty env atoi.
Proof.
  unfold main_difficulty. destruct (negb _); [|lia].
  destruct atoi as [val|]; [|lia]. destruct (Z.ltb_spec 0 val); lia.
Qed.

(** [main] takes any positive number from BLOCKCHAIN_DIFFICULTY, the
    largest [int] included. *)
Example main_difficulty_max_int :
  main_difficulty "9223372036854775807" (Some max_int) = max_int.
Proof. reflexivity. Qed.

(** X22. The server [main] starts: a chain grown from the genesis block,
    and the difficulty read from BLOCKCHAIN_DIFFICULTY, which is at least 1
    whatever the variable holds. A body that does not decode is answered
    400 and adds nothing. When a write answers, it answers 201 with a block
    that is now the last of the chain, carries the submitted data and the
    server's difficulty, and meets that difficulty. With a difficulty of at
    most 64 a write never panics. [main] does not bound the difficulty from
    above: with one above 64 no write is ever answered and the chain stays
    as it is, and with one above what [strings.Repeat] can allocate every
    write panics on the first nonce. *)
Theorem handleWriteBlock_spec (env : string) (atoi : option Z) (t : string)
    (ops : list chain_op) (fuel : nat) (t' : string) :
  let s := NewBlockchainServer (run_ops ops (NewBlockchain t)) (main_difficulty env atoi) in
  1 <= difficulty s /\
  handleWriteBlock s None fuel t' = (s, Ok (mkReply 400 None)) /\
  forall data : string,
    (forall reply : WriteReply,
       snd (handleWriteBlock s (Some data) fuel t') = Ok reply ->
       exists newBlock : Block,
         reply = mkReply 201 (Some newBlock) /\
         server_chain (fst (handleWriteBlock s (Some data) fuel t'))
           = server_chain s ++ [newBlock] /\
         Data newBlock = data /\ Difficulty newBlock = difficulty s /\
         meets_difficulty newBlock) /\
    (difficulty s <= 64 -> snd (handleWriteBlock s (Some data) fuel t') <> Panic) /\
    (64 < difficulty s ->
       (forall reply : WriteReply,
          snd (handleWriteBlock s (Some data) fuel t') <> Ok reply) /\
       server_chain (fst (handleWriteBlock s (Some data) fuel t')) = server_chain s) /\
    (max_alloc < difficulty s ->
       forall fuel' : nat, handleWriteBlock s (Some data) (S fuel') t' = (s, Panic)).
Proof.
  intros s. pose proof (main_difficulty_positive env atoi) as Hd.
  split; [exact Hd|]. split; [reflexivity|]. intros data.
  destruct (run_ops_preserves ops (NewBlockchain t) (NewBlockchain_ok t)) as [Hne _].
  unfold handleWriteBlock, s, NewBlockchainServer. simpl.
  set (bc := run_ops ops (NewBlockchain t)) in *.
  set (d := main_difficulty env atoi) in *.
  destruct (GetLatestBlock bc) as [tip| |] eqn:Htip.
  2:{ exfalso. unfold GetLatestBlock in Htip. destruct (last bc) eqn:Hl; [discriminate|].
      apply last_None in Hl. contradiction. }
  2:{ unfold GetLatestBlock in Htip. destruct (last bc); discriminate. }
  assert (Hbig : max_alloc < d ->
            forall fuel' : nat,
              (let (bc0, o) := AddBlock (S fuel') t' bc data d in
               match o with
               | Ok newBlock => (mkServer bc0 d, Ok (mkReply 201 (Some newBlock)))
               | Panic => (mkServer bc0 d, Panic)
               | OutOfFuel => (mkServer bc0 d, OutOfFuel)
               end) = (mkServer bc d, Panic)).
  { intros Hb fuel'. unfold AddBlock. rewrite Htip.
    rewrite GenerateBlock_unallocatable by exact Hb. reflexivity. }
  unfold AddBlock at 1 2 3 4 5. rewrite Htip.
  destruct (GenerateBlock fuel t' tip data d) as [b| |] eqn:Hg.
  - rewrite (GenerateBlock_valid _ _ _ _ _ _ Hg). simpl.
    split; [|split; [discriminate|split; [|exact Hbig]]].
    + intros reply [= <-]. exists b.
      apply mine_meets in Hg as (Hdiff & Hdata & _ & Hm). simpl in Hdiff, Hdata. auto.
    + intros H64. exfalso. revert Hg. unfold GenerateBlock.
      apply mine_above_64. simpl. exact H64.
  - simpl. split; [discriminate|]. split; [|split; [|exact Hbig]].
    + intros H64. exfalso. unfold GenerateBlock in Hg. revert Hg.
      apply mine_no_panic. simpl. pose proof max_alloc_64. lia.
    + intros _. split; [discriminate | reflexivity].
  - simpl. split; [discriminate|]. split; [discriminate|].
    split; [|exact Hbig]. intros _. split; [discriminate | reflexivity].
Qed.

(** Started with BLOCKCHAIN_DIFFICULTY=4611686018427387904, the server
    panics on the first write. *)
Example handleWriteBlock_unallocatable :
  let s := NewBlockchainServer (NewBlockchain ts0)
             (main_difficulty "4611686018427387904" (Some (2 ^ 62))) in
  handleWriteBlock s (Some "payload") 1 ts1 = (s, Panic).
Proof. vm_compute. reflexivity. Qed.



(** ** The block store *)

Lemma Itoa_parse (z : Z) :
  DecimalString.NilZero.int_of_string (Itoa z) = Some (Z.to_int z).
Proof.
  unfold Itoa. apply DecimalString.NilZero.isi.
  - destruct z; simpl; try discriminate. intros [= H]. revert H.
    apply DecimalPos.Unsigned.to_uint_nonnil.
  - destruct z; simpl; try discriminate. intros [= H]. revert H.
    apply DecimalPos.Unsigned.to_uint_nonnil.
Qed.

Lemma Itoa_inj (z z' : Z) : Itoa z = Itoa z' -> z = z'.
Proof.
  intros H. apply (f_equal DecimalString.NilZero.int_of_string) in H.
  rewrite !Itoa_parse in H. injection H as H.
  apply (f_equal Z.of_int) in H. rewrite !DecimalZ.of_to in H. exact H.
Qed.

Lemma Itoa_nonempty (z : Z) : Itoa z <> "".
Proof.
  intros H. pose proof (Itoa_parse z) as Hp. rewrite H in Hp. discriminate.
Qed.

Module StoreProofs.
Import Store.

Lemma hash_key_not_index (h x : string) : ("hash" ++ h)%string <> ("index" ++ x)%string.
Proof. intros H. vm_compute in H. discriminate. Qed.

Lemma hash_key_not_latest (h : string) : ("hash" ++ h)%string <> "latest".
Proof. intros H. vm_compute in H. discriminate. Qed.

Lemma index_key_not_latest (x : string) : ("index" ++ x)%string <> "latest".
Proof. intros H. vm_compute in H. discriminate. Qed.

Lemma index_key_inj (i j : Z) :
  ("index" ++ Itoa i)%string = ("index" ++ Itoa j)%string -> i = j.
Proof. intros H. apply String.app_inj in H. apply Itoa_inj, H. Qed.

Section Codec.

Variable Marshal : Block -> string.
Variable Unmarshal : string -> option Block.
Variable Atoi : string -> option Z.

(** What one fully successful [SaveBlock] does to the database. *)
Lemma SaveBlock_ok (s : LevelDBStore) (d : gmap string string) (block : Block) :
  db s = Some d ->
  SaveBlock Marshal s block true true true
  = (mkStore
       (Some (let d' := <[("index" ++ Itoa (Index block))%string := Marshal block]>
                          (<[("hash" ++ Hash block)%string := Marshal block]> d) in
              if lastIndex s <? Index block then <["latest" := Hash block]> d' else d'))
       (dbPath s) (Z.max (lastIndex s) (Index block)),
     None).
Proof.
  intros Hd. unfold SaveBlock. rewrite Hd. simpl.
  destruct (Z.ltb_spec (lastIndex s) (Index block)).
  - rewrite Z.max_r by lia. reflexivity.
  - rewrite Z.max_l by lia. reflexivity.
Qed.

(** X24. Saving a block and reading it back. On an open database, when the
    three writes succeed and the block survives a trip through JSON,
    [SaveBlock] reports no error and the block can then be read by its hash
    and by its index. The highest index seen never goes down; a block whose
    index is above it becomes the one [GetLatestBlock] returns, and a block
    whose index is not above it leaves the "latest" entry alone. *)
Theorem SaveBlock_read_back (s : LevelDBStore) (d : gmap string string) (block : Block) :
  db s = Some d ->
  Unmarshal (Marshal block) = Some block ->
  let s' := fst (SaveBlock Marshal s block true true true) in
  snd (SaveBlock Marshal s block true true true) = None /\
  GetBlock Unmarshal s' (Hash block) = inl block /\
  GetBlockByIndex Unmarshal s' (Index block) = inl block /\
  lastIndex s' = Z.max (lastIndex s) (Index block) /\
  (lastIndex s < Index block -> GetLatestBlock Unmarshal s' = inl block) /\
  (Index block <= lastIndex s ->
   forall d', db s' = Some d' -> d' !! "latest" = d !! "latest").
Proof.
  intros Hd Hrt s'. unfold s'. rewrite (SaveBlock_ok s d block Hd). simpl.
  split; [reflexivity|].
  assert (Hhash : forall d0 : gmap string string,
            (<[("index" ++ Itoa (Index block))%string := Marshal block]>
               (<[("hash" ++ Hash block)%string := Marshal block]> d0))
              !! ("hash" ++ Hash block)%string = Some (Marshal block)).
  { intros d0. rewrite lookup_insert_ne by (apply not_eq_sym, hash_key_not_index).
    apply lookup_insert_eq. }
  split; [|split; [|split; [reflexivity|split]]].
  - unfold GetBlock, read_block. simpl.
    destruct (lastIndex s <? Index block).
    + rewrite lookup_insert_ne by (apply not_eq_sym, hash_key_not_latest).
      rewrite Hhash, Hrt. reflexivity.
    + rewrite Hhash, Hrt. reflexivity.
  - unfold GetBlockByIndex, read_block. simpl.
    destruct (lastIndex s <? Index block).
    + rewrite lookup_insert_ne by (apply not_eq_sym, index_key_not_latest).
      rewrite lookup_insert_eq, Hrt. reflexivity.
    + rewrite lookup_insert_eq, Hrt. reflexivity.
  - intros Hlt. unfold GetLatestBlock, GetBlock, read_block. simpl.
    destruct (Z.ltb_spec (lastIndex s) (Index block)); [|lia].
    rewrite lookup_insert_eq.
    rewrite lookup_insert_ne by (apply not_eq_sym, hash_key_not_latest).
    rewrite Hhash, Hrt. reflexivity.
  - intros Hle d' Hd'. destruct (Z.ltb_spec (lastIndex s) (Index block)); [lia|].
    injection Hd' as <-.
    rewrite lookup_insert_ne by apply index_key_not_latest.
    rewrite lookup_insert_ne by apply hash_key_not_latest. reflexivity.
Qed.

Lemma save_all_snoc (s : LevelDBStore) (blocks : list Block) (block : Block) :
  save_all Marshal s (blocks ++ [block])
  = fst (SaveBlock Marshal (save_all Marshal s blocks) block true true true).
Proof. unfold save_all. rewrite fold_left_app. reflexivity. Qed.

Lemma indices_from_zero_snoc (blocks : list Block) (block : Block) :
  indices_from_zero (blocks ++ [block]) ->
  indices_from_zero blocks /\ Index block = Z.of_nat (length blocks).
Proof.
  intros Hi. split.
  - intros i b Hb. apply Hi. rewrite lookup_app_l; [exact Hb|].
    eapply lookup_lt_Some; eauto.
  - apply Hi. rewrite lookup_app_r, Nat.sub_diag by lia. reflexivity.
Qed.

Lemma save_all_saved (path : string) (blocks : list Block) :
  indices_from_zero blocks ->
  saved Marshal path blocks (save_all Marshal (mkStore (Some ∅) path (-1)) blocks).
Proof.
  induction blocks as [|block blocks IH] using rev_ind; intros Hidx.
  - exists ∅. split; [reflexivity|]. split; [intros i b Hb; discriminate|].
    split; [intros b Hb; discriminate|].
    intros k [v Hv]. rewrite lookup_empty in Hv. discriminate.
  - apply indices_from_zero_snoc in Hidx as [Hidx Hlast].
    destruct (IH Hidx) as (d & Hs & Hindex & _ & Hkeys).
    rewrite save_all_snoc, Hs.
    rewrite (SaveBlock_ok (mkStore (Some d) path (Z.of_nat (length blocks) - 1))
               d block eq_refl). simpl.
    destruct (Z.ltb_spec (Z.of_nat (length blocks) - 1) (Index block)) as [_|?]; [|lia].
    eexists. split; [|split; [|split]].
    + f_equal. rewrite length_app. simpl. lia.
    + intros i b Hb.
      rewrite lookup_insert_ne by (apply not_eq_sym, index_key_not_latest).
      destruct (decide (i < length blocks)%nat) as [Hlt|Hge].
      * rewrite lookup_app_l in Hb by exact Hlt.
        rewrite lookup_insert_ne by (intros H; apply index_key_inj in H; lia).
        rewrite lookup_insert_ne by apply hash_key_not_index.
        apply Hindex, Hb.
      * assert (Hi : (i < length (blocks ++ [block]))%nat) by (eapply lookup_lt_Some; eauto).
        rewrite length_app in Hi. simpl in Hi. assert (i = length blocks) as -> by lia.
        rewrite lookup_app_r, Nat.sub_diag in Hb by lia. injection Hb as <-.
        rewrite <- Hlast. apply lookup_insert_eq.
    + intros b Hb. rewrite last_snoc in Hb. injection Hb as <-.
      split; [apply lookup_insert_eq|].
      rewrite lookup_insert_ne by (apply not_eq_sym, hash_key_not_latest).
      rewrite lookup_insert_ne by (apply not_eq_sym, hash_key_not_index).
      apply lookup_insert_eq.
    + intros k Hk. rewrite length_app. simpl.
      destruct (decide (k = "latest")) as [->|Hl]; [auto|].
      rewrite lookup_insert_ne in Hk by congruence.
      destruct (decide (k = ("index" ++ Itoa (Index block))%string)) as [->|Hi].
      { right. right. exists (length blocks). split; [lia|]. rewrite Hlast. reflexivity. }
      rewrite lookup_insert_ne in Hk by congruence.
      destruct (decide (k = ("hash" ++ Hash block)%string)) as [->|Hh]; [eauto|].
      rewrite lookup_insert_ne in Hk by congruence.
      destruct (Hkeys k Hk) as [?|[?|(i & Hi' & ->)]]; auto.
      right. right. exists i. split; [lia | reflexivity].
Qed.



Lemma read_from_gap (s : LevelDBStore) (d : gmap string string) (gap : Z) :
  db s = Some d ->
  d !! ("index" ++ Itoa gap)%string = None ->
  forall (n : nat) (start : Z),
    start <= gap < start + Z.of_nat n ->
    exists (i : Z) (e : store_error),
      read_from Unmarshal s n start = inr (ErrGetAt i e) /\ start <= i <= gap.
Proof.
  intros Hd Hgap. induction n as [|n IH]; intros start Hr; [lia|].
  cbn [read_from].
  destruct (GetBlockByIndex Unmarshal s start) as [block|e] eqn:Hget.
  - destruct (decide (start = gap)) as [->|Hne].
    + unfold GetBlockByIndex, read_block in Hget. rewrite Hd, Hgap in Hget. discriminate.
    + destruct (IH (start + 1) ltac:(lia)) as (i & e & -> & Hi).
      exists i, e. split; [reflexivity | lia].
  - exists start, e. split; [reflexivity | lia].
Qed.

(** X26. [GetAllBlocks] reads every index from 0 to the highest one saved
    and gives up at the first it cannot read: if any index in that range is
    missing from the database, no block at all is returned. When the slice
    it fills can be allocated and has no more blocks than the database has
    entries, what is returned is an error that names an index at or below
    the missing one. *)
Theorem GetAllBlocks_gap (s : LevelDBStore) (d : gmap string string) (gap : Z) :
  db s = Some d ->
  0 <= gap <= lastIndex s ->
  d !! ("index" ++ Itoa gap)%string = None ->
  (forall blocks : list Block, GetAllBlocks Unmarshal s <> inl blocks) /\
  (slice_fits s -> lastIndex s < len d ->
   exists (i : Z) (e : store_error),
     GetAllBlocks Unmarshal s = inr (ErrGetAt i e) /\ 0 <= i <= gap).
Proof.
  intros Hd Hr Hgap.
  assert (Herr : exists (i : Z) (e : store_error),
             GetAllBlocks Unmarshal s = inr (ErrGetAt i e) /\ 0 <= i <= gap).
  { unfold GetAllBlocks. rewrite Hd.
    apply (read_from_gap s d gap Hd Hgap). lia. }
  split.
  - intros blocks Hb. destruct Herr as (i & e & He & _). congruence.
  - intros _ _. exact Herr.
Qed.

(** X27. [SaveBlock] is three writes and nothing undoes the ones already
    made. On a store not yet initialized it reports an error and does
    nothing. If the first write fails the store is as before; if the second
    fails the block stays readable by hash but not by index; if the third
    fails the block is readable both ways and the highest index has
    moved, but the "latest" entry still names the block it named before. *)
Theorem SaveBlock_failures (s : LevelDBStore) (block : Block) (put2 put3 : bool) :
  (db s = None -> forall put1 : bool,
     SaveBlock Marshal s block put1 put2 put3 = (s, Some ErrNotInitialized)) /\
  (forall d : gmap string string, db s = Some d ->
     SaveBlock Marshal s block false put2 put3 = (s, Some ErrStoreByHash) /\
     (let s' := fst (SaveBlock Marshal s block true false put3) in
      snd (SaveBlock Marshal s block true false put3) = Some ErrStoreByIndex /\
      db s' = Some (<[("hash" ++ Hash block)%string := Marshal block]> d) /\
      lastIndex s' = lastIndex s) /\
     (lastIndex s < Index block ->
      let s' := fst (SaveBlock Marshal s block true true false) in
      snd (SaveBlock Marshal s block true true false) = Some ErrUpdateLatest /\
      lastIndex s' = Index block /\
      forall d', db s' = Some d' ->
        d' !! "latest" = d !! "latest" /\
        d' !! ("hash" ++ Hash block)%string = Some (Marshal block) /\
        d' !! ("index" ++ Itoa (Index block))%string = Some (Marshal block))).
Proof.
  split.
  - intros Hd put1. unfold SaveBlock. rewrite Hd. reflexivity.
  - intros d Hd. unfold SaveBlock. rewrite Hd. simpl.
    split; [reflexivity|]. split; [auto|].
    intros Hlt. destruct (Z.ltb_spec (lastIndex s) (Index block)); [|lia]. simpl.
    split; [reflexivity|]. split; [reflexivity|]. intros d' [= <-].
    split; [|split].
    + rewrite lookup_insert_ne by apply index_key_not_latest.
      rewrite lookup_insert_ne by apply hash_key_not_latest. reflexivity.
    + rewrite lookup_insert_ne by (apply not_eq_sym, hash_key_not_index).
      apply lookup_insert_eq.
    + apply lookup_insert_eq.
Qed.

Lemma scan_key_ge (li : Z) (key : string) : li <= scan_key Atoi li key.
Proof.
  unfold scan_key. destruct (_ && _); [|lia].
  destruct (Atoi _) as [index|]; [|lia]. destruct (Z.ltb_spec li index); lia.
Qed.

Lemma scan_key_index (li i : Z) :
  Atoi (Itoa i) = Some i ->
  scan_key Atoi li ("index" ++ Itoa i)%string = Z.max li i.
Proof.
  intros Ha. unfold scan_key.
  change ("index" ++ Itoa i)%string
    with (String "i" (String "n" (String "d" (String "e" (String "x" (Itoa i)))))).
  destruct (Itoa i) as [|c rest] eqn:Hi; [exfalso; exact (Itoa_nonempty i Hi)|].
  cbn [String.length String.substring Nat.sub].
  rewrite substring_all. simpl. rewrite Ha.
  destruct (Z.ltb_spec li i); lia.
Qed.

Lemma scan_key_hash (li : Z) (h : string) : scan_key Atoi li ("hash" ++ h)%string = li.
Proof.
  unfold scan_key.
  change ("hash" ++ h)%string with (String "h" (String "a" (String "s" (String "h" h)))).
  destruct (5 <? _)%nat; [|reflexivity]. simpl.
  destruct h; reflexivity.
Qed.

Lemma scan_fold_bounds (B : Z) (visit : list (string * string)) :
  (forall z : Z, min_int <= z <= max_int -> Atoi (Itoa z) = Some z) ->
  B <= max_int ->
  (forall k v, (k, v) ∈ visit ->
     (exists h, k = ("hash" ++ h)%string) \/ k = "latest" \/
     (exists i : Z, 0 <= i <= B /\ k = ("index" ++ Itoa i)%string)) ->
  forall li : Z,
    li <= fold_left (fun lastIndex kv => scan_key Atoi lastIndex (fst kv)) visit li
       <= Z.max li B /\
    (forall (i : Z) (v : string), 0 <= i <= B -> (("index" ++ Itoa i)%string, v) ∈ visit ->
       i <= fold_left (fun lastIndex kv => scan_key Atoi lastIndex (fst kv)) visit li).
Proof.
  intros Hatoi HB. induction visit as [|[k v] visit IH]; intros Hkeys li; simpl.
  - split; [lia|]. intros i v _ Hin. apply elem_of_nil in Hin. contradiction.
  - destruct (IH (fun k' v' Hin => Hkeys k' v' (list_elem_of_further _ _ _ Hin))
                (scan_key Atoi li k)) as [[Hlo Hhi] Hfound].
    pose proof (scan_key_ge li k) as Hge.
    assert (Hk : scan_key Atoi li k <= Z.max li B).
    { destruct (Hkeys k v ltac:(left)) as [[h ->]|[->|(i & Hi & ->)]].
      - rewrite scan_key_hash. lia.
      - change (scan_key Atoi li "latest") with li. lia.
      - rewrite scan_key_index by (apply Hatoi; unfold min_int, max_int in *; lia). lia. }
    split; [lia|]. intros i v' Hi Hin.
    apply elem_of_cons in Hin as [[= <- <-]|Hin].
    + rewrite scan_key_index in Hlo |- *
        by (apply Hatoi; unfold min_int, max_int in *; lia).
      lia.
    + eapply Hfound; eauto.
Qed.

(** X28. Closing and reopening. A chain with indices 0, 1, 2, ... was saved
    into a database opened empty. A fresh store at the same path,
    initialized on what the database then holds, finds the highest index
    again by walking the keys, in whatever order: it is the same store as
    the one that did the saving. *)
Theorem Initialize_recovers (path : string) (blocks : list Block)
    (d : gmap string string) (visit : list (string * string)) :
  (forall z : Z, min_int <= z <= max_int -> Atoi (Itoa z) = Some z) ->
  indices_from_zero blocks ->
  Z.of_nat (length blocks) <= max_int ->
  db (save_all Marshal (mkStore (Some ∅) path (-1)) blocks) = Some d ->
  ranges d visit ->
  Initialize Atoi (NewLevelDBStore path) (Some d) visit
  = (save_all Marshal (mkStore (Some ∅) path (-1)) blocks, None).
Proof.
  intros Hatoi Hidx Hlen Hd Hr.
  destruct (save_all_saved path blocks Hidx) as (d' & Hs & Hindex & _ & Hkeys).
  rewrite Hs in Hd |- *. injection Hd as ->.
  unfold Initialize, NewLevelDBStore. simpl. f_equal. f_equal.
  set (B := Z.of_nat (length blocks) - 1).
  destruct (scan_fold_bounds B visit Hatoi ltac:(unfold B; lia)) with (li := -1)
    as [[Hlo Hhi] Hfound].
  { intros k v Hin. apply (ranges_lookup _ _ k v Hr) in Hin.
    destruct (Hkeys k ltac:(eauto)) as [?|[?|(i & Hi & ->)]]; auto.
    right. right. exists (Z.of_nat i). split; [unfold B; lia | reflexivity]. }
  destruct (decide (length blocks = O)) as [Hzero|Hpos]; [subst B; lia|].
  destruct (lookup_lt_is_Some_2 blocks (length blocks - 1)) as [b Hlast]; [lia|].
  specialize (Hindex _ b Hlast).
  assert (Z.of_nat (length blocks - 1)
          <= fold_left (fun lastIndex kv => scan_key Atoi lastIndex (fst kv)) visit (-1)).
  { apply (Hfound _ (Marshal b)); [subst B; lia|].
    apply (ranges_lookup _ _ _ _ Hr). exact Hindex. }
  subst B. lia.
Qed.

End Codec.

Lemma SaveBlock_read_back_witness :
  GetBlock example_Unmarshal
           (fst (SaveBlock example_Marshal store0 mined1 true true true)) (Hash mined1)
    = inl mined1 /\
  GetLatestBlock example_Unmarshal
                 (fst (SaveBlock example_Marshal store0 mined1 true true true))
    = inl mined1.
Proof.
  destruct (SaveBlock_read_back example_Marshal example_Unmarshal store0 ∅ mined1
              eq_refl eq_refl) as (_ & Hh & _ & _ & Hl & _).
  split; [exact Hh|]. apply Hl. simpl. lia.
Defined.

Lemma example_Atoi_Itoa (z : Z) : example_Atoi (Itoa z) = Some z.
Proof.
  unfold example_Atoi. rewrite Itoa_parse. simpl. f_equal. apply DecimalZ.of_to.
Qed.

Lemma example_indices : indices_from_zero [genesis0; mined1].
Proof.
  intros [|[|i]] b Hb; simpl in Hb; try discriminate; injection Hb as <-; reflexivity.
Qed.


Lemma GetAllBlocks_gap_witness :
  (forall blocks : list Block,
     GetAllBlocks example_Unmarshal (fst (SaveBlock example_Marshal store0 mined1 true true true))
     <> inl blocks) /\
  exists (i : Z) (e : store_error),
    GetAllBlocks example_Unmarshal (fst (SaveBlock example_Marshal store0 mined1 true true true))
    = inr (ErrGetAt i e) /\ 0 <= i <= 0.
Proof.
  destruct (db (fst (SaveBlock example_Marshal store0 mined1 true true true)))
    as [d|] eqn:Hd; [|discriminate Hd].
  assert (Hr : 0 <= 0 <= lastIndex (fst (SaveBlock example_Marshal store0 mined1 true true true)))
    by (simpl; lia).
  assert (Hgap : d !! ("index" ++ Itoa 0)%string = None)
    by (injection Hd as <-; vm_compute; reflexivity).
  destruct (GetAllBlocks_gap example_Unmarshal _ d 0 Hd Hr Hgap) as [Hno Herr].
  split; [exact Hno|]. apply Herr.
  - split; vm_compute; discriminate.
  - injection Hd as <-. vm_compute. reflexivity.
Defined.


Lemma Initialize_recovers_witness :
  exists d : gmap string string,
    db (save_all example_Marshal store0 [genesis0; mined1]) = Some d /\
    Initialize example_Atoi (NewLevelDBStore "chain.db") (Some d) (map_to_list d)
    = (save_all example_Marshal store0 [genesis0; mined1], None).
Proof.
  destruct (db (save_all example_Marshal store0 [genesis0; mined1])) as [d|] eqn:Hd;
    [|discriminate Hd].
  exists d. split; [reflexivity|].
  apply (Initialize_recovers example_Marshal example_Atoi "chain.db" [genesis0; mined1] d
           (map_to_list d) (fun z _ => example_Atoi_Itoa z) example_indices).
  - simpl. unfold max_int. lia.
  - exact Hd.
  - apply Permutation_refl.
Defined.

End StoreProofs.
